(** * melrose: playback, pedal scheduling, input capture and device registry

    A shallow embedding of the Go sources
      - package [midi], file [midi/device.go]: [Midi.Play], [Midi.PlayNote],
        [Midi.SetBeatsPerMinute], [Midi.Open], [pedalEvent.Handle],
        [Midi.handledPedalChange], [DeviceRegistry.Output],
        [DeviceRegistry.Input], [DeviceRegistry.Command],
        [DeviceRegistry.IO];
      - package [control]: [Listen.NoteOn], [Listen.isNoteOnCount],
        [Listen.NoteOff], [Listen.Play], [Listen.Stop];
      - package [dsl], file [dsl/eval_funcs.go]: [IsCompatibleSyntax],
        [registerFunction], [getSequenceable], [getValue] and the functions
        behind [play], [go] and [export];
      - package [cli], file [ui/cli/help.go]: the listing blocks of
        [showHelp];
    together with the properties the specification states about them and
    further properties that the code itself shows.

    Conventions.  Go's [int], [int64] and [time.Duration] are 64-bit two's
    complement integers, modelled as [Z] with the wrap-around written out
    ([wrap64]).  Go's [float64] and [float32] are IEEE-754 binary64 and
    binary32, modelled by the Standard Library's [spec_float] at precisions
    (53, 1024) and (24, 128).  Go maps are [gmap]s.  Instants ([time.Time])
    are nanosecond counts in [Z]. *)

From Stdlib Require Import ZArith List Lia Bool Sorting.Sorted.
From Stdlib Require Import Floats.SpecFloat.
From stdpp Require Import gmap strings list sorting.

Local Open Scope Z_scope.

(** ** Machine integers *)

Definition min_int64 : Z := - 2 ^ 63.
Definition max_int64 : Z := 2 ^ 63 - 1.

(** Two's complement wrap-around of 64-bit signed arithmetic. *)
Definition wrap64 (z : Z) : Z := (z + 2 ^ 63) mod 2 ^ 64 - 2 ^ 63.

Definition in_int64 (z : Z) : bool := (min_int64 <=? z) && (z <=? max_int64).

(** ** Go floating point and its conversions

    [float64] is [spec_float] at (53, 1024) and [float32] is [spec_float] at
    (24, 128); arithmetic rounds to nearest, ties to even. *)

Definition float64_of_Z (n : Z) : spec_float := binary_normalize 53 1024 n 0 false.

(** [float32(i)] for an integer [i]: rounded to the 24-bit significand. *)
Definition float32_of_Z (n : Z) : spec_float := binary_normalize 24 128 n 0 false.

(** The binary32 value nearest to [m * 2^e]. *)
Definition float32_dyadic (m e : Z) : spec_float := binary_normalize 24 128 m e false.

(** [math.Round]: nearest integer, halves away from zero; zeros, infinities
    and NaN are returned unchanged. *)
Definition Round (x : spec_float) : spec_float :=
  match x with
  | S754_finite s m e =>
      if 0 <=? e then x
      else
        let d := 2 ^ (- e) in
        let t := Z.pos m / d in
        let r := Z.pos m mod d in
        let n := if d <=? 2 * r then t + 1 else t in
        if n =? 0 then S754_zero s
        else binary_normalize 53 1024 (cond_Zopp s n) 0 s
  | _ => x
  end.

(** A float to integer conversion whose value does not fit is
    implementation-dependent in Go; on amd64 it yields the most negative
    integer, which is what is modelled. *)
Definition int64_indefinite : Z := min_int64.

(** [int(x)], [int64(x)], [time.Duration(x)] for a float [x]: the fraction
    is discarded (truncation toward zero). *)
Definition int64_of_float (x : spec_float) : Z :=
  match x with
  | S754_zero _ => 0
  | S754_finite s m e =>
      let v := cond_Zopp s (Z.shiftl (Z.pos m) e) in
      if in_int64 v then v else int64_indefinite
  | _ => int64_indefinite
  end.


Definition float_zero : spec_float := S754_zero false.

(** [0 < x] on floats; false when [x] is NaN. *)
Definition positive_float (x : spec_float) : bool := SFltb float_zero x.


(** [time.Millisecond], in nanoseconds. *)
Definition Millisecond : Z := 1000000.

(** ** Notes *)

(** Modelled from the spec: the pedal marker of a note; the [core.Note] type
    is declared outside the files embedded here.  Section 3: an optional
    pedal marker among none, down, up, up-then-down. *)
Inductive PedalMarker := PedalNone | PedalDown | PedalUp | PedalUpDown.

(** Modelled from the spec: the type [core.Note], declared outside the files
    embedded here.  Section 3: a pitch (MIDI number 0-127) or rest marker, a
    duration factor (fraction of a whole note), a velocity and an optional
    pedal marker.  The duration factor is a [float32]: [Midi.PlayNote]
    multiplies it with a [float32]. *)
Record Note := mkNote {
  note_midi : Z;
  note_rest : bool;
  note_factor : spec_float;
  note_velocity : Z;
  note_pedal : PedalMarker
}.

(** Modelled from the spec: the methods of [core.Note] that the embedded code
    calls; each reads the datum of section 3 it is named after. *)
Definition MIDI (n : Note) : Z := note_midi n.
Definition IsRest (n : Note) : bool := note_rest n.
Definition DurationFactor (n : Note) : spec_float := note_factor n.

Definition IsPedalUp (n : Note) : bool :=
  match note_pedal n with PedalUp => true | _ => false end.
Definition IsPedalDown (n : Note) : bool :=
  match note_pedal n with PedalDown => true | _ => false end.
Definition IsPedalUpDown (n : Note) : bool :=
  match note_pedal n with PedalUpDown => true | _ => false end.

(** ** Input capture: [control.Listen] *)

Module Listen.

(** The fields of [Listen] that its note callbacks read or write.  The
    variable store reached through [l.ctx.Variables()] is kept in the state
    as well, since [NoteOn] writes to it.  The mutex is not modelled as
    data: each of the three operations below runs its map accesses inside
    one critical section, so each is one atomic transition.  The debug
    logging under [core.IsDebug()] does not touch the state. *)
Record t := mk {
  deviceID : Z;
  variableName : string;
  isRunning : bool;
  notesOn : gmap Z Z;
  noteChangeCount : Z;
  variables : gmap string Note
}.

(** [NewListen]: empty map, counter at zero. *)
Definition NewListen (device : Z) (name : string) (store : gmap string Note) : t :=
  {| deviceID := device; variableName := name; isRunning := false;
     notesOn := ∅; noteChangeCount := 0; variables := store |}.

(** [isNoteOnCount]:
    [count, ok := l.notesOn[nr]; return ok && count == countCheck]. *)
Definition isNoteOnCount (l : t) (nr countCheck : Z) : bool :=
  match notesOn l !! nr with
  | Some count => count =? countCheck
  | None => false
  end.

(** [NoteOn]: increments the counter, records it for the note's MIDI number,
    publishes the note in the variable store, and hands the evaluated target
    the closure [cond].  The result is the state after the locked part and
    that closure; the closure reads the listener state current at the time
    it is called. *)
Definition NoteOn (l : t) (n : Note) : t * (t -> bool) :=
  let count := wrap64 (noteChangeCount l + 1) in
  let countCheck := count in
  let nr := MIDI n in
  let l' := {| deviceID := deviceID l; variableName := variableName l;
               isRunning := isRunning l;
               notesOn := <[nr := countCheck]> (notesOn l);
               noteChangeCount := count;
               variables := <[variableName l := n]> (variables l) |} in
  (l', fun cur => isNoteOnCount cur nr countCheck).

(** [NoteOff]: [delete(l.notesOn, n.MIDI())]. *)
Definition NoteOff (l : t) (n : Note) : t :=
  {| deviceID := deviceID l; variableName := variableName l;
     isRunning := isRunning l;
     notesOn := delete (MIDI n) (notesOn l);
     noteChangeCount := noteChangeCount l;
     variables := variables l |}.

(** The events a listener receives from the input device. *)
Inductive event := On (n : Note) | Off (n : Note).

Definition handle (l : t) (e : event) : t :=
  match e with
  | On n => fst (NoteOn l n)
  | Off n => NoteOff l n
  end.

(** The counter is a Go [int]: it always holds a 64-bit value. *)
Definition wf (l : t) : Prop := min_int64 <= noteChangeCount l <= max_int64.

(** The number of note-on events in a trace. *)
Definition strikes (es : list event) : Z :=
  fold_right (fun e acc => match e with On _ => 1 + acc | Off _ => acc end) 0 es.

Definition middleC : Note := mkNote 60 false (float32_of_Z 1) 72 PedalNone.

(** The pitch an event is about, and the note struck last in a trace. *)
Definition pitch (e : event) : Z :=
  match e with On n | Off n => MIDI n end.

Definition lastStruck (es : list event) : option Note :=
  fold_left (fun acc e => match e with On n => Some n | Off _ => acc end) es None.

(** The held notes are ranked by the counter: every recorded count lies
    between 1 and the counter, and no two pitches hold the same count. *)
Definition ranked (l : t) : Prop :=
  (forall k c, notesOn l !! k = Some c -> 1 <= c <= noteChangeCount l) /\
  (forall k1 k2 c, notesOn l !! k1 = Some c -> notesOn l !! k2 = Some c -> k1 = k2).

(** *** Starting and stopping

    [Play] and [Stop] reach the device through the context: [capable] is
    what [ctx.Device().HasInputCapability()] answers, and [calls] records
    the calls [ctx.Device().Listen(l.deviceID, l, l.isRunning)] made so far,
    oldest first, each with the device id and the start-or-stop flag.  The
    listener argument is always [l] itself. *)
Inductive error := InputNotAvailable.

Definition setRunning (l : t) (b : bool) : t :=
  {| deviceID := deviceID l; variableName := variableName l;
     isRunning := b;
     notesOn := notesOn l;
     noteChangeCount := noteChangeCount l;
     variables := variables l |}.

Definition Play (l : t) (capable : bool) (calls : list (Z * bool))
  : t * list (Z * bool) * option error :=
  if isRunning l then (l, calls, None)
  else if negb capable then (l, calls, Some InputNotAvailable)
  else
    let l' := setRunning l true in
    (l', calls ++ [(deviceID l', isRunning l')], None).





End Listen.

(** ** Playback: [midi.Midi] *)

Module Midi.

Record t := mk {
  enabled : bool;
  stream : Z;
  bpm : spec_float;
  deviceID : Z;
  echo : bool
}.

Definition noteOn : Z := 0x90.
Definition noteOff : Z := 0x80.

(** One [WriteShort] received by a hardware stream, with the instant at
    which it was written. *)
Record Write := mkWrite {
  w_at : Z;
  w_stream : Z;
  w_status : Z;
  w_data1 : Z;
  w_data2 : Z
}.

(** What [print] and [fmt.Println] put on the console. *)
Inductive Printed :=
| PrintNote (n : Note)
| PrintGroup (g : list Note)
| PrintNewline.

(** The world a device acts on: the wall clock, the writes the hardware has
    received so far (oldest first) and the console. *)
Record World := mkWorld {
  now : Z;
  written : list Write;
  console : list Printed
}.

(** What a goroutine does next: a locked [WriteShort] on a stream or a
    [time.Sleep]. *)
Inductive Action :=
| WriteShort (st status data1 data2 : Z)
| Sleep (d : Z).

(** A goroutine: its own position on the clock and the rest of its body. *)
Record Goroutine := mkGoroutine {
  g_clock : Z;
  g_code : list Action
}.

(** [wholeNoteDuration] of [Play]:
    [time.Duration(int(math.Round(4*60*1000/m.bpm))) * time.Millisecond]. *)
Definition wholeNoteDuration (bpm : spec_float) : Z :=
  wrap64 (int64_of_float (Round (SFdiv 53 1024 (float64_of_Z (4 * 60 * 1000)) bpm))
          * Millisecond).

(** [actualDuration] of [PlayNote]:
    [time.Duration(float32(wholeNoteDuration) * note.DurationFactor())]. *)
Definition actualDuration (whole : Z) (note : Note) : Z :=
  int64_of_float (SFmul 24 128 (float32_of_Z whole) (DurationFactor note)).

(** [PlayNote], as the body of the goroutine that runs it.  Each write is
    made with the device mutex held, so it is one indivisible action. *)
Definition PlayNote (m : t) (note : Note) (whole : Z) : list Action :=
  let actual := actualDuration whole note in
  if IsRest note then [Sleep actual]
  else
    let data1 := MIDI note in
    [WriteShort (stream m) noteOn data1 100;
     Sleep actual;
     WriteShort (stream m) noteOff data1 100].

(** *** Running the goroutines of one group

    The goroutines of a group run on a discrete-event clock: the one that is
    earliest on the clock moves next (the one spawned first among equals),
    a write is logged at the writer's instant and takes no time, and
    [time.Sleep d] moves the sleeper [d] ahead, or not at all when [d] is not
    positive. *)

Definition runnable (g : Goroutine) : bool :=
  match g_code g with [] => false | _ => true end.

Fixpoint earliest (gs : list Goroutine) : option (nat * Z) :=
  match gs with
  | [] => None
  | g :: rest =>
      match earliest rest with
      | None => if runnable g then Some (O, g_clock g) else None
      | Some (i, c) =>
          if runnable g && (g_clock g <=? c) then Some (O, g_clock g)
          else Some (S i, c)
      end
  end.

Definition perform (g : Goroutine) (log : list Write) : Goroutine * list Write :=
  match g_code g with
  | [] => (g, log)
  | WriteShort st status data1 data2 :: k =>
      (mkGoroutine (g_clock g) k,
       log ++ [mkWrite (g_clock g) st status data1 data2])
  | Sleep d :: k => (mkGoroutine (g_clock g + Z.max 0 d) k, log)
  end.

Definition step (gs : list Goroutine) (log : list Write)
  : option (list Goroutine * list Write) :=
  match earliest gs with
  | None => None
  | Some (i, _) =>
      match gs !! i with
      | None => None
      | Some g => let '(g', log') := perform g log in Some (<[i := g']> gs, log')
      end
  end.

Fixpoint run (fuel : nat) (gs : list Goroutine) (log : list Write)
  : list Goroutine * list Write :=
  match fuel with
  | O => (gs, log)
  | S fuel' =>
      match step gs log with
      | None => (gs, log)
      | Some (gs', log') => run fuel' gs' log'
      end
  end.

(** Which of several goroutines standing at the same instant moves first is
    up to the Go scheduler; [step] takes the one spawned first.  [moves] is
    the relation that leaves the choice open: any goroutine that has
    something left to do and that no other such goroutine is ahead of may
    move. *)
Inductive moves : list Goroutine * list Write -> list Goroutine * list Write -> Prop :=
| moves_at (gs : list Goroutine) (log : list Write) (i : nat) (g : Goroutine) :
    gs !! i = Some g ->
    runnable g = true ->
    Forall (fun g' => runnable g' = true -> g_clock g <= g_clock g') gs ->
    moves (gs, log) (<[i := fst (perform g log)]> gs, snd (perform g log)).

(** The number of actions the goroutines still have to perform. *)
Definition pending (gs : list Goroutine) : nat :=
  list_sum (map (fun g => length (g_code g)) gs).

(** [wg.Wait()], called at [t0]: returns when the last goroutine is done. *)
Definition Wait (t0 : Z) (gs : list Goroutine) : Z :=
  fold_right (fun g acc => Z.max (g_clock g) acc) t0 gs.

(** The body of [Play]'s loop after the echo: one goroutine per note, all
    spawned at the current instant, then the join. *)
Definition spawn (m : t) (whole : Z) (group : list Note) (t0 : Z) : list Goroutine :=
  map (fun n => mkGoroutine t0 (PlayNote m n whole)) group.

Definition playGroup (m : t) (whole : Z) (group : list Note) (w : World) : World :=
  let gs := spawn m whole group (now w) in
  let '(gs', log) := run (pending gs) gs (written w) in
  mkWorld (Wait (now w) gs') log (console w).

Definition print (p : Printed) (w : World) : World :=
  mkWorld (now w) (written w) (console w ++ [p]).

Definition echoGroup (group : list Note) (w : World) : World :=
  match group with
  | [n] => print (PrintNote n) w
  | _ => print (PrintGroup group) w
  end.

(** [Play]; [seq] is the sequence's [Notes] field. *)
Definition Play (m : t) (seq : list (list Note)) (echo : bool) (w : World) : World :=
  if negb (enabled m) then w
  else
    let whole := wholeNoteDuration (bpm m) in
    let w' :=
      fold_left
        (fun w eachGroup =>
           playGroup m whole eachGroup (if echo then echoGroup eachGroup w else w))
        seq w in
    if echo then print PrintNewline w' else w'.

(** [SetBeatsPerMinute]. *)
Definition SetBeatsPerMinute (m : t) (v : spec_float) : t :=
  if SFleb v float_zero then m
  else mk (enabled m) (stream m) v (deviceID m) (echo m).

Definition BeatsPerMinute (m : t) : spec_float := bpm m.

(** [Open], given what the driver answers: the default output device id and
    the stream it opens for it, if any. *)
Definition Open (defaultOutput : Z) (out : option Z) : option t :=
  if defaultOutput =? -1 then None
  else
    match out with
    | None => None
    | Some s => Some (mk true s (float64_of_Z 120) 0 false)
    end.

(** The time a note's goroutine spends asleep, and the longest such time in
    a group. *)
Definition noteDuration (whole : Z) (n : Note) : Z := Z.max 0 (actualDuration whole n).

Definition groupDuration (whole : Z) (group : list Note) : Z :=
  fold_right Z.max 0 (map (noteDuration whole) group).

(** The durations of the groups of a sequence, added up. *)
Definition sequenceDuration (whole : Z) (seq : list (list Note)) : Z :=
  fold_right Z.add 0 (map (groupDuration whole) seq).

(** The instant a goroutine finishes at: its clock plus the sleeps ahead. *)
Definition sleeps (code : list Action) : Z :=
  fold_right (fun a acc => match a with Sleep d => Z.max 0 d + acc | _ => acc end) 0 code.

Definition endClock (g : Goroutine) : Z := g_clock g + sleeps (g_code g).

(** A goroutine that is not before [t0] and finishes no later than [T]. *)
Definition between (t0 T : Z) (g : Goroutine) : Prop := t0 <= g_clock g /\ endClock g <= T.

(** *** Sample devices, notes and sequences *)

(** A device that plays at 120 beats per minute on stream 7, and a disabled
    one. *)
Definition at120 : Midi.t := mk true 7 (float64_of_Z 120) 0 false.
Definition disabled120 : Midi.t := mk false 0 (float64_of_Z 120) 0 false.

Definition whole_ (pitch : Z) : Note := mkNote pitch false (float32_dyadic 1 0) 72 PedalNone.
Definition half_ (pitch : Z) : Note := mkNote pitch false (float32_dyadic 1 (-1)) 72 PedalNone.

(** Section 8, example 8 of the specification: the chord C E G of whole
    notes, then a half note D. *)
Definition example8 : list (list Note) := [[whole_ 60; whole_ 64; whole_ 67]; [half_ 62]].

(** A pseudo-note that only carries a pedal marker. *)
Definition pedalNote (p : PedalMarker) : Note := mkNote 0 false (float32_dyadic 1 (-2)) 0 p.




(** *** What a run writes

    Writes are told apart by what they carry, not by their instant: [P] is a
    test on stream, status and the two data bytes. *)
Definition carries (P : Z -> Z -> Z -> Z -> bool) (wr : Write) : bool :=
  P (w_stream wr) (w_status wr) (w_data1 wr) (w_data2 wr).

Definition countLog (P : Z -> Z -> Z -> Z -> bool) (log : list Write) : nat :=
  length (List.filter (carries P) log).

Definition countCode (P : Z -> Z -> Z -> Z -> bool) (code : list Action) : nat :=
  length (List.filter
            (fun a => match a with WriteShort st s d1 d2 => P st s d1 d2 | Sleep _ => false end)
            code).

Definition countPending (P : Z -> Z -> Z -> Z -> bool) (gs : list Goroutine) : nat :=
  list_sum (map (fun g => countCode P (g_code g)) gs).

(** The notes of a sequence that are not rests. *)
Definition sounding (seq : list (list Note)) : list Note :=
  List.filter (fun n => negb (IsRest n)) (concat seq).

(** What the echo prints for a group. *)
Definition echoed (group : list Note) : Printed :=
  match group with
  | [n] => PrintNote n
  | _ => PrintGroup group
  end.

(** A log in which no write is stamped earlier than one before it, and none
    later than [T]. *)
Definition chronological (T : Z) (log : list Write) : Prop :=
  Sorted.StronglySorted (fun a b => w_at a <= w_at b) log /\
  Forall (fun wr => w_at wr <= T) log.

(** No goroutine that still has something to do stands before a write that
    has already been made. *)
Definition timely (gs : list Goroutine) (log : list Write) : Prop :=
  Forall (fun wr => Forall (fun g => runnable g = true -> w_at wr <= g_clock g) gs) log.

(** The writes [Play] may make on the stream of [m]: Note-On and Note-Off at
    velocity 100. *)
Definition noteMessage (m : t) (wr : Write) : Prop :=
  w_stream wr = stream m /\ w_data2 wr = 100 /\
  (w_status wr = noteOn \/ w_status wr = noteOff).




End Midi.

(** ** Sustain pedal: [pedalEvent] and [Midi.handledPedalChange] *)

Module Pedal.
Import Midi.

(** Modelled from the spec: the constants [controlChange] and [sustainPedal],
    declared outside the files embedded here.  Section 6 gives the
    Control-Change status byte as 0xB0 and the glossary gives the sustain
    pedal as controller 64. *)
Definition controlChange : Z := 0xB0.
Definition sustainPedal : Z := 64.

Record pedalEvent := mkPedalEvent {
  goingDown : bool;
  channel : Z;
  out : Z
}.

(** The interface [core.TimelineEvent]: one operation, [Handle]. *)
Class TimelineEvent (E : Type) := Handle : E -> Z -> World -> World.

(** [pedalEvent.Handle]: one Control-Change write on the event's stream,
    value 127 for down and 0 for up. *)
Definition pedalEvent_Handle (p : pedalEvent) (when : Z) (w : World) : World :=
  let onoff := if goingDown p then 127 else 0 in
  let status := Z.lor controlChange (wrap64 (channel p - 1)) in
  mkWorld (now w) (written w ++ [mkWrite (now w) (out p) status sustainPedal onoff])
          (console w).

#[export] Instance pedalEvent_TimelineEvent : TimelineEvent pedalEvent :=
  pedalEvent_Handle.

(** Modelled from the spec: [core.Timeline], declared outside the files
    embedded here.  Section 4.1: [Schedule(event, at)] enqueues an event and
    never blocks.  A timeline is represented by what was submitted to it,
    oldest submission first. *)
Definition Timeline (E : Type) : Type := list (Z * E).

(** Modelled from the spec: [Timeline.Schedule]; the submission is
    recorded. *)
Definition Schedule {E : Type} (event : E) (at_ : Z) (tl : Timeline E) : Timeline E :=
  tl ++ [(at_, event)].

(** Modelled from the spec: the queue of pending events of [core.Timeline].
    Section 3: the timeline holds the pending (event, scheduledTime) pairs
    ordered by time, ties broken by submission order; section 4.1: first
    scheduled, first fired. *)
Fixpoint enqueue {E : Type} (event : E) (at_ : Z) (q : list (Z * E)) : list (Z * E) :=
  match q with
  | [] => [(at_, event)]
  | (t, e) :: rest =>
      if t <=? at_ then (t, e) :: enqueue event at_ rest
      else (at_, event) :: q
  end.

(** Modelled from the spec: the pending queue that a record of submissions
    gives rise to. *)
Definition pendingQueue {E : Type} (tl : Timeline E) : list (Z * E) :=
  fold_left (fun q p => enqueue (snd p) (fst p) q) tl [].

(** Modelled from the spec: the dispatch loop of [core.Timeline].  Section
    4.1: it fires each pending event exactly once, when its time arrives, by
    calling [Handle(scheduler, actualFireTime)]. *)
Fixpoint dispatch {E : Type} `{TimelineEvent E} (q : list (Z * E)) (w : World) : World :=
  match q with
  | [] => w
  | (t, e) :: rest =>
      let fireAt := Z.max (now w) t in
      dispatch rest (Handle e fireAt (mkWorld fireAt (written w) (console w)))
  end.

(** [handledPedalChange]: the timeline after the call and the result. *)
Definition handledPedalChange (m : Midi.t) (channel : Z) (timeline : Timeline pedalEvent)
    (moment : Z) (group : list Note) : Timeline pedalEvent * bool :=
  if (length group =? 0)%nat || (1 <? length group)%nat then (timeline, false)
  else
    match group with
    | [] => (timeline, false)
    | note :: _ =>
        if IsPedalUp note then
          (Schedule (mkPedalEvent false channel (stream m)) moment timeline, true)
        else if IsPedalUpDown note then
          let timeline1 := Schedule (mkPedalEvent false channel (stream m)) moment timeline in
          (Schedule (mkPedalEvent true channel (stream m)) moment timeline1, true)
        else if IsPedalDown note then
          (Schedule (mkPedalEvent true channel (stream m)) moment timeline, false)
        else (timeline, false)
    end.

(** The pending entries that are due no later than [at_], and the ones that
    follow them. *)
Fixpoint due {E : Type} (at_ : Z) (tl : list (Z * E)) : list (Z * E) :=
  match tl with
  | [] => []
  | (t, e) :: rest => if t <=? at_ then (t, e) :: due at_ rest else []
  end.

Fixpoint later {E : Type} (at_ : Z) (tl : list (Z * E)) : list (Z * E) :=
  match tl with
  | [] => []
  | (t, e) :: rest => if t <=? at_ then later at_ rest else tl
  end.

(** A queue as [enqueue] keeps it: in time order. *)
Fixpoint ordered {E : Type} (tl : list (Z * E)) : Prop :=
  match tl with
  | [] => True
  | (t, _) :: rest => Forall (fun p => t <= fst p) rest /\ ordered rest
  end.

Definition pedalUp (ch st : Z) : pedalEvent := mkPedalEvent false ch st.
Definition pedalDown (ch st : Z) : pedalEvent := mkPedalEvent true ch st.

End Pedal.

(** ** Device registry: [DeviceRegistry.Output] *)

Module DeviceRegistry.

(** Modelled from the spec: [OutputDevice], declared outside the files
    embedded here.  Section 3: an output device owns one hardware output
    stream, a default MIDI channel and an echo flag; section 4.5: starting it
    puts it in its playback-accepting state. *)
Record OutputDevice := mkOutputDevice {
  od_id : Z;
  od_stream : Z;
  defaultChannel : Z;
  od_echo : bool;
  od_started : bool
}.

(** Modelled from the spec: [NewOutputDevice] wraps a stream in a device
    that is not started yet. *)
Definition NewOutputDevice (id midiOut channel : Z) : OutputDevice :=
  mkOutputDevice id midiOut channel false false.

(** Modelled from the spec: [OutputDevice.Start] puts the device in its
    playback-accepting state. *)
Definition Start (od : OutputDevice) : OutputDevice :=
  mkOutputDevice (od_id od) (od_stream od) (defaultChannel od) (od_echo od) true.

Section Registry.

(** The stream registry and its [output] method are declared outside the
    files embedded here: they are parameters.  [output] answers with a stream
    or fails, and may change the stream registry. *)
Variable StreamRegistry : Type.
Variable output : StreamRegistry -> Z -> option Z * StreamRegistry.

(** The registry; its [in] map and default input id play no part in
    [Output] and are left out.  Devices live on the heap; a [*OutputDevice]
    is an index into it, and every allocation takes a fresh index. *)
Record t := mk {
  out : gmap Z nat;
  heap : list OutputDevice;
  defaultOutputID : Z;
  streamRegistry : StreamRegistry
}.

(** Where a call of [Output(id)] stands: before the shared-lock lookup,
    between the two locks after a miss, or returned (with the device, or
    with nil and an error). *)
Inductive pc := AtRLock | AtLock | Returned (r : option nat).

Record Call := mkCall { call_id : Z; call_pc : pc }.

(** One critical section of [Output].  Under the shared lock: the lookup.
    Under the exclusive lock: open the stream, allocate the device, cache
    it, start it. *)
Definition Output_step (c : Call) (d : t) : Call * t :=
  let id := call_id c in
  match call_pc c with
  | AtRLock =>
      match out d !! id with
      | Some m => (mkCall id (Returned (Some m)), d)
      | None => (mkCall id AtLock, d)
      end
  | AtLock =>
      match output (streamRegistry d) id with
      | (None, sr) =>
          (mkCall id (Returned None), mk (out d) (heap d) (defaultOutputID d) sr)
      | (Some midiOut, sr) =>
          let od := length (heap d) in
          let heap1 := heap d ++ [NewOutputDevice id midiOut 1] in
          (mkCall id (Returned (Some od)),
           mk (<[id := od]> (out d)) (alter Start od heap1) (defaultOutputID d) sr)
      end
  | Returned _ => (c, d)
  end.

(** A call of [Output] that no other call interleaves with. *)
Definition Output (d : t) (id : Z) : option nat * t :=
  let '(c1, d1) := Output_step (mkCall id AtRLock) d in
  let '(c2, d2) := Output_step c1 d1 in
  match call_pc c2 with
  | Returned r => (r, d2)
  | _ => (None, d2)
  end.

(** Concurrent calls: the schedule names, step by step, the call that runs
    its next critical section. *)
Fixpoint interleave (schedule : list nat) (calls : list Call) (d : t) : list Call * t :=
  match schedule with
  | [] => (calls, d)
  | i :: rest =>
      match calls !! i with
      | None => interleave rest calls d
      | Some c =>
          let '(c', d') := Output_step c d in
          interleave rest (<[i := c']> calls) d'
      end
  end.

(** Every cached pointer leads to a device on the heap that was made for the
    id it is cached under and has been started. *)
Definition cacheSound (d : t) : Prop :=
  forall id p, out d !! id = Some p ->
               exists od, heap d !! p = Some od /\ od_id od = id /\ od_started od = true.

End Registry.

(** A stream registry that opens each id once and then reuses the stream;
    the stream of device [id] is named [1000 + id]. *)
Definition cachingOutput (sr : gmap Z Z) (id : Z) : option Z * gmap Z Z :=
  match sr !! id with
  | Some s => (Some s, sr)
  | None => (Some (1000 + id), <[id := 1000 + id]> sr)
  end.

Definition emptyRegistry : t (gmap Z Z) := mk _ ∅ [] 3 ∅.

(** A stream registry that cannot open anything. *)
Definition noOutput (sr : unit) (id : Z) : option Z * unit := (None, sr).

End DeviceRegistry.

(** ** The registry's inputs and its command line *)

Module DeviceCommands.

(** Modelled from the spec: [InputDevice], declared outside the files
    embedded here.  Section 3: an input device owns one hardware input
    stream; [NewInputDevice] wraps the stream it is given. *)
Record InputDevice := mkInputDevice {
  id_id : Z;
  id_stream : Z
}.

Definition NewInputDevice (id midiIn : Z) : InputDevice := mkInputDevice id midiIn.

(** A [notify.Message], kept as its level, its format and what the format is
    filled with. *)
Inductive Message :=
| Infof_printing_notes_enabled (echo : bool)
| Warningf_missing_device_number
| Errorf_bad_device_number
| Infof_current_input_device_id (nr : Z)
| Infof_current_output_device_id (nr : Z)
| Warningf_unknown_device_access_command (command : string).

Section Commands.

(** Declared outside the files embedded here, and so parameters: the stream
    registry with its [output] and [input] methods, and [strconv.Atoi],
    which answers with the number or fails.  [printInfo] prints the usage
    and the device table it reads from the driver; what it does to the
    registry, if it returns at all, depends on the driver's answers, and it
    is a parameter too. *)
Variable StreamRegistry : Type.
Variable output : StreamRegistry -> Z -> option Z * StreamRegistry.
Variable input : StreamRegistry -> Z -> option Z * StreamRegistry.
Variable Atoi : string -> option Z.

(** The whole registry: the part [Output] works on, the cache of input
    devices with the heap they live on, and the default input id. *)
Record t := mk {
  outputs : DeviceRegistry.t StreamRegistry;
  in_ : gmap Z nat;
  inputs : list InputDevice;
  defaultInputID : Z
}.

Variable printInfo : t -> option t.

Definition withOutputs (d : t) (o : DeviceRegistry.t StreamRegistry) : t :=
  mk o (in_ d) (inputs d) (defaultInputID d).

(** [IO]. *)
Definition IO (d : t) : Z * Z :=
  (defaultInputID d, DeviceRegistry.defaultOutputID _ (outputs d)).

(** [ChangeInputDeviceID] and [ChangeOutputDeviceID]. *)
Definition ChangeInputDeviceID (d : t) (id : Z) : t :=
  mk (outputs d) (in_ d) (inputs d) id.

Definition ChangeOutputDeviceID (d : t) (id : Z) : t :=
  withOutputs d (DeviceRegistry.mk _ (DeviceRegistry.out _ (outputs d))
                                   (DeviceRegistry.heap _ (outputs d))
                                   id
                                   (DeviceRegistry.streamRegistry _ (outputs d))).

(** [Output], on the whole registry. *)
Definition Output (d : t) (id : Z) : option nat * t :=
  let '(r, o) := DeviceRegistry.Output _ output (outputs d) id in (r, withOutputs d o).

(** [Input], as a call that no other call interleaves with: the lookup under
    the shared lock; after a miss, under the exclusive lock, open the stream,
    allocate the device and cache it.  An input device is not started. *)
Definition Input (d : t) (id : Z) : option nat * t :=
  match in_ d !! id with
  | Some m => (Some m, d)
  | None =>
      let o := outputs d in
      let withStreams sr :=
        DeviceRegistry.mk _ (DeviceRegistry.out _ o) (DeviceRegistry.heap _ o)
                          (DeviceRegistry.defaultOutputID _ o) sr in
      match input (DeviceRegistry.streamRegistry _ o) id with
      | (None, sr) => (None, mk (withStreams sr) (in_ d) (inputs d) (defaultInputID d))
      | (Some midiIn, sr) =>
          let ide := length (inputs d) in
          (Some ide,
           mk (withStreams sr) (<[id := ide]> (in_ d))
              (inputs d ++ [NewInputDevice id midiIn]) (defaultInputID d))
      end
  end.

(** [od.echo = !od.echo]. *)
Definition toggleEcho (od : DeviceRegistry.OutputDevice) : DeviceRegistry.OutputDevice :=
  DeviceRegistry.mkOutputDevice (DeviceRegistry.od_id od) (DeviceRegistry.od_stream od)
                                (DeviceRegistry.defaultChannel od)
                                (negb (DeviceRegistry.od_echo od))
                                (DeviceRegistry.od_started od).

(** [Command].  The result is [None] when the call panics: the echo command
    drops the error of [Output] and goes through the pointer it got, which
    is nil when the default output device cannot be opened.  The other
    [None] branches stand for an index or a pointer out of range and are
    never reached: [args[1]] is read only when there are two arguments, and
    [Output] returns pointers into the heap. *)
Definition Command (d : t) (args : list string) : option (option Message * t) :=
  match args with
  | [] =>
      match printInfo d with
      | Some d' => Some (None, d')
      | None => None
      end
  | command :: _ =>
      if String.eqb command "echo" then
        match Output d (DeviceRegistry.defaultOutputID _ (outputs d)) with
        | (None, _) => None
        | (Some od, d1) =>
            let o := outputs d1 in
            let heap1 := alter toggleEcho od (DeviceRegistry.heap _ o) in
            match heap1 !! od with
            | None => None
            | Some dev =>
                Some (Some (Infof_printing_notes_enabled (DeviceRegistry.od_echo dev)),
                      withOutputs d1
                        (DeviceRegistry.mk _ (DeviceRegistry.out _ o) heap1
                                           (DeviceRegistry.defaultOutputID _ o)
                                           (DeviceRegistry.streamRegistry _ o)))
            end
        end
      else if String.eqb command "in" then
        if negb (length args =? 2)%nat then Some (Some Warningf_missing_device_number, d)
        else
          match args !! 1%nat with
          | None => None
          | Some a =>
              match Atoi a with
              | None => Some (Some Errorf_bad_device_number, d)
              | Some nr =>
                  Some (Some (Infof_current_input_device_id nr), ChangeInputDeviceID d nr)
              end
          end
      else if String.eqb command "out" then
        if negb (length args =? 2)%nat then Some (Some Warningf_missing_device_number, d)
        else
          match args !! 1%nat with
          | None => None
          | Some a =>
              match Atoi a with
              | None => Some (Some Errorf_bad_device_number, d)
              | Some nr =>
                  Some (Some (Infof_current_output_device_id nr), ChangeOutputDeviceID d nr)
              end
          end
      else Some (Some (Warningf_unknown_device_access_command command), d)
  end.

(** The devices of a registry: both caches, both heaps and the streams. *)
Definition devices (d : t)
  : gmap Z nat * list DeviceRegistry.OutputDevice * StreamRegistry
    * gmap Z nat * list InputDevice :=
  (DeviceRegistry.out _ (outputs d), DeviceRegistry.heap _ (outputs d),
   DeviceRegistry.streamRegistry _ (outputs d), in_ d, inputs d).

(** The echo flag of the device cached for the default output id. *)
Definition defaultEcho (d : t) : option bool :=
  match DeviceRegistry.out _ (outputs d) !! DeviceRegistry.defaultOutputID _ (outputs d) with
  | None => None
  | Some p => DeviceRegistry.od_echo <$> DeviceRegistry.heap _ (outputs d) !! p
  end.

End Commands.

(** [strconv.Atoi] on the numerals the samples use. *)
Definition sampleAtoi (a : string) : option Z :=
  if String.eqb a "2" then Some 2
  else if String.eqb a "-1" then Some (-1)
  else None.

Definition sampleRegistry : t (gmap Z Z) :=
  mk _ DeviceRegistry.emptyRegistry ∅ [] 0.

(** The sample registry once its default output device 3 is open and
    echoes. *)
Definition echoing : t (gmap Z Z) :=
  mk _ (DeviceRegistry.mk _ (<[3 := 0%nat]> ∅)
                          [DeviceRegistry.mkOutputDevice 3 1003 1 true true] 3
                          (<[3 := 1003]> ∅))
     ∅ [] 0.

(** A registry whose streams cannot be opened. *)
Definition deadRegistry : t unit := mk _ (DeviceRegistry.mk _ ∅ [] 3 tt) ∅ [] 0.

End DeviceCommands.


(** ** The language's functions: package [dsl] *)

Module Dsl.
Import Stdlib.Strings.Ascii.

(** [Syntax]: major, minor. *)
Definition Syntax : string := "1.0".

(** [strings.Split] for a separator of one byte, which is how
    [IsCompatibleSyntax] calls it: the pieces between the separators, so one
    piece more than there are separators, and the one piece [s] when there
    is none. *)
Fixpoint Split (s : string) (sep : Ascii.ascii) : list string :=
  match s with
  | EmptyString => [EmptyString]
  | String c rest =>
      if Ascii.eqb c sep then EmptyString :: Split rest sep
      else
        match Split rest sep with
        | [] => [String c EmptyString]
        | piece :: pieces => String c piece :: pieces
        end
  end.

(** [IsCompatibleSyntax].  The result is [None] when an index is out of
    range.  The conjunction is evaluated left to right and stops at the
    first false operand: [ss[1]] is only looked at when the majors agree.
    Strings compare byte by byte. *)
Definition IsCompatibleSyntax (s : string) : option bool :=
  if (String.length s =? 0)%nat then Some true
  else
    let mm := Split Syntax "."%char in
    let ss := Split s "."%char in
    match mm !! 0%nat, ss !! 0%nat with
    | Some m0, Some s0 =>
        if String.eqb m0 s0 then
          match ss !! 1%nat, mm !! 1%nat with
          | Some s1, Some m1 => Some (String.leb s1 m1)
          | _, _ => None
          end
        else Some false
    | _, _ => None
    end.

(** [strings.HasSuffix]. *)
Definition HasSuffix (s suffix : string) : bool :=
  (String.length suffix <=? String.length s)%nat
  && String.eqb (String.substring (String.length s - String.length suffix)
                           (String.length suffix) s)
                suffix.

(** A string without the byte [c], and a non-empty string of decimal
    digits. *)
Fixpoint without (c : Ascii.ascii) (s : string) : bool :=
  match s with
  | EmptyString => true
  | String a rest => negb (Ascii.eqb a c) && without c rest
  end.

Definition isDigit (a : Ascii.ascii) : bool :=
  (48 <=? Ascii.nat_of_ascii a)%nat && (Ascii.nat_of_ascii a <=? 57)%nat.

Fixpoint digits (s : string) : bool :=
  match s with
  | EmptyString => false
  | String a EmptyString => isDigit a
  | String a rest => isDigit a && digits rest
  end.

Section Functions.

(** What a [Function] carries in [Func]: a closure of any type. *)
Variable Closure : Type.

Record Function := mkFunction {
  Title : string;
  Description : string;
  Prefix : string;
  Alias : string;
  Template : string;
  Samples : string;
  ControlsAudio : bool;
  Tags : string;
  IsCore : bool;
  IsComposer : bool;
  Func : Closure
}.

(** [f.Title = fmt.Sprintf(...)] with the format [%s [%s]] on the title and
    the alias. *)
Definition withAliasInTitle (f : Function) : Function :=
  mkFunction (Title f ++ " [" ++ Alias f ++ "]") (Description f) (Prefix f) (Alias f)
             (Template f) (Samples f) (ControlsAudio f) (Tags f) (IsCore f)
             (IsComposer f) (Func f).

(** [registerFunction]; [None] when [log.Fatal] ends the program. *)
Definition registerFunction (m : gmap string Function) (k : string) (f : Function)
  : option (gmap string Function) :=
  match m !! k with
  | Some dup => None
  | None =>
      if (0 <? String.length (Alias f))%nat then
        match m !! Alias f with
        | Some dup => None
        | None =>
            let m1 := <[k := f]> m in
            Some (<[Alias f := withAliasInTitle f]> m1)
        end
      else Some (<[k := f]> m)
  end.

End Functions.

Section Playing.

(** Declared outside the files embedded here, and so parameters: the type
    [core.Sequenceable], and the audio device with its
    [Play(seq, bpm, beginAt)], which answers with the instant the playing
    ends at. *)
Variable Sequenceable : Type.
Variable Device : Type.
Variable DevicePlay : Device -> Sequenceable -> spec_float -> Z -> Z * Device.

(** A value of the language ([interface{}]), as far as the type assertions
    see it: whether it is a [core.Sequenceable], and whether it is a
    [core.Valueable], with what its [Value()] returns. *)
Inductive Value :=
| Plain (sequenceable : option Sequenceable)
| Holder (sequenceable : option Sequenceable) (value : Value).

(** [getSequenceable]: the value as a sequenceable, if it is one. *)
Definition getSequenceable (v : Value) : option Sequenceable :=
  match v with Plain s | Holder s _ => s end.

(** [getValue]: the [Value()] of a valueable, any other value itself. *)
Definition getValue (val : Value) : Value :=
  match val with
  | Holder _ v => v
  | Plain _ => val
  end.

(** The function behind [play]: [now] is what [time.Now()] returns and [bpm]
    what [ctx.Control().BPM()] returns.  The result is the device after the
    calls and the playables that were warned about. *)
Definition play (now : Z) (bpm : spec_float) (playables : list Value) (dev : Device)
  : Device * list Value :=
  let '(_, dev', warned) :=
    fold_left
      (fun '(moment, dev, warned) p =>
         match getSequenceable (getValue p) with
         | Some s => let '(ending, dev') := DevicePlay dev s bpm moment in (ending, dev', warned)
         | None => (moment, dev, warned ++ [p])
         end)
      playables (now, dev, []) in
  (dev', warned).

(** The function behind [go]. *)
Definition go (now : Z) (bpm : spec_float) (playables : list Value) (dev : Device)
  : Device * list Value :=
  let moment := now in
  fold_left
    (fun '(dev, warned) p =>
       match getSequenceable (getValue p) with
       | Some s => (snd (DevicePlay dev s bpm moment), warned)
       | None => (dev, warned ++ [p])
       end)
    playables (dev, []).

(** What the function behind [export] comes to: a panic, or the call
    [file.Export(filename, getValue(m), bpm)]. *)
Inductive Exported :=
| Panic_missing_filename
| Panic_cannot_MIDI_export
| Export (filename : string) (m : Value).

Definition export (filename : string) (m : Value) : Exported :=
  if (String.length filename =? 0)%nat then Panic_missing_filename
  else
    match getSequenceable m with
    | None => Panic_cannot_MIDI_export
    | Some _ =>
        let filename :=
          if negb (HasSuffix filename "mid") then (filename ++ ".mid")%string
          else filename in
        Export filename (getValue m)
    end.

End Playing.

(** A device that keeps the calls of [Play] it gets, each with the object
    and the instant to begin at, and answers with [ending]. *)
Definition recorder {S : Type} (ending : S -> Z -> Z)
    (calls : list (S * Z)) (s : S) (bpm : spec_float) (beginAt : Z)
  : Z * list (S * Z) :=
  (ending s beginAt, calls ++ [(s, beginAt)]).

(** Objects handed over back to back: each begins where the one before it
    ends. *)
Fixpoint backToBack {S : Type} (ending : S -> Z -> Z) (beginAt : Z) (objects : list S)
  : list (S * Z) :=
  match objects with
  | [] => []
  | s :: rest => (s, beginAt) :: backToBack ending (ending s beginAt) rest
  end.

End Dsl.

(** ** The help text: package [cli] *)

Module Help.

(** How [sort.Strings] orders strings: byte by byte. *)
Definition before (a b : string) : Prop := String.leb a b = true.

#[export] Instance before_dec (a b : string) : Decision (before a b).
Proof. unfold before. apply _. Defined.

(** [sort.Strings]: the strings in increasing order. *)
Definition Strings (keys : list string) : list string := merge_sort before keys.

(** [len] of a string: a Go [int]. *)
Definition len (s : string) : Z := Z.of_nat (String.length s).

(** [strings.Repeat], which panics on a negative count. *)
Definition Repeat (s : string) (count : Z) : option string :=
  if count <? 0 then None
  else Some (Nat.iter (Z.to_nat count) (String.append s) EmptyString).

Section Listing.
Variable Closure : Type.

Local Abbreviation Function := (Dsl.Function Closure).

(** One line of a listing: the padding, the key and the text after the
    dashes.  [Fprintf] writes the three with the format [%s --- %s] and a
    newline, the first operand being padding and key joined. *)
Record Line := mkLine {
  padding : string;
  key : string;
  text : string
}.

Definition Fprintf (l : Line) : string :=
  ((padding l ++ key l) ++ " --- " ++ text l ++ String (Ascii.ascii_of_nat 10) EmptyString)%string.

(** The first loop of a listing block of [showHelp], over the entries of
    the map in the order [range] yields them: functions without a title are
    skipped; the first block skips those that control audio and the second
    block, for which [audio] is set, those that do not; the keys of the
    others are collected and the width of the longest is kept. *)
Definition collect (audio : bool) (range : list (string * Function)) : list string * Z :=
  fold_left
    (fun '(keys, width) '(k, f) =>
       if (len (Dsl.Title _ f) =? 0) then (keys, width)
       else if negb (Bool.eqb (Dsl.ControlsAudio _ f) audio) then (keys, width)
       else (keys ++ [k], if width <? len k then len k else width))
    range ([], 0).

(** The second loop: the keys sorted, each looked up in the map and written
    right-aligned, with the title in the first block and the description in
    the second.  A key that is missing from the map yields the zero
    [Function], whose strings are empty.  The result is [None] when
    [strings.Repeat] panics. *)
Definition write (audio : bool) (funcs : gmap string Function) (width : Z)
    (keys : list string) : option (list Line) :=
  mapM (fun k =>
          let shown :=
            match funcs !! k with
            | Some f => if audio then Dsl.Description _ f else Dsl.Title _ f
            | None => EmptyString
            end in
          match Repeat " " (width - len k) with
          | None => None
          | Some pad => Some (mkLine pad k shown)
          end)
       (Strings keys).

(** A listing block of [showHelp]; [range] is the entries of [funcs] in the
    order in which the map yields them. *)
Definition listing (audio : bool) (funcs : gmap string Function)
    (range : list (string * Function)) : option (list Line) :=
  let '(keys, width) := collect audio range in
  write audio funcs width keys.

(** Whether a function belongs in the block. *)
Definition listed (audio : bool) (f : Function) : bool :=
  negb (len (Dsl.Title _ f) =? 0) && Bool.eqb (Dsl.ControlsAudio _ f) audio.

End Listing.

End Help.

(** * Properties *)

(** ** Machine integers *)

Lemma wrap64_id z : min_int64 <= z <= max_int64 -> wrap64 z = z.
Proof.
  unfold wrap64, min_int64, max_int64. intros H.
  rewrite Z.mod_small; lia.
Qed.

Lemma wrap64_range z : min_int64 <= wrap64 z <= max_int64.
Proof.
  unfold wrap64, min_int64, max_int64.
  pose proof (Z.mod_pos_bound (z + 2 ^ 63) (2 ^ 64) ltac:(lia)). lia.
Qed.

Lemma wrap64_succ_neq z : min_int64 <= z <= max_int64 -> wrap64 (z + 1) <> z.
Proof.
  unfold wrap64, min_int64, max_int64. intros H E.
  destruct (Z.eq_dec z (2 ^ 63 - 1)) as [->|Hne].
  - replace (2 ^ 63 - 1 + 1 + 2 ^ 63) with (1 * 2 ^ 64) in E by lia.
    rewrite Z.mod_mul in E; lia.
  - rewrite Z.mod_small in E; lia.
Qed.

Lemma wrap64_add_l a b : wrap64 (wrap64 a + b) = wrap64 (a + b).
Proof.
  unfold wrap64. f_equal.
  replace ((a + 2 ^ 63) mod 2 ^ 64 - 2 ^ 63 + b + 2 ^ 63)
    with ((a + 2 ^ 63) mod 2 ^ 64 + b) by lia.
  rewrite Zplus_mod_idemp_l. f_equal. lia.
Qed.

(** Fewer than [2^64] increments never bring a counter back to its value. *)
Lemma wrap64_add_neq c j :
  min_int64 <= c <= max_int64 -> 0 < j < 2 ^ 64 -> wrap64 (c + j) <> c.
Proof.
  unfold wrap64, min_int64, max_int64. intros Hc Hj E.
  pose proof (Z.div_mod (c + j + 2 ^ 63) (2 ^ 64) ltac:(lia)) as Hdm.
  assert (Hm : (c + j + 2 ^ 63) mod 2 ^ 64 = c + 2 ^ 63) by lia.
  rewrite Hm in Hdm.
  assert (Hq : j = 2 ^ 64 * ((c + j + 2 ^ 63) / 2 ^ 64)) by lia.
  lia.
Qed.

(** ** Binary32 arithmetic

    What the conversion of an integer to [float32] and the [float32] product
    with a power of two compute, from the definitions of [spec_float]. *)

Module FloatFacts.


















End FloatFacts.

(** ** The goroutine scheduler *)

Module MidiFacts.
Import Midi FloatFacts.

Lemma perform_endClock g log : endClock (fst (perform g log)) = endClock g.
Proof.
  unfold perform, endClock. destruct g as [c code]; simpl.
  destruct code as [|[st status d1 d2|d] k]; simpl; lia.
Qed.

Lemma perform_pending g log :
  runnable g = true -> S (length (g_code (fst (perform g log)))) = length (g_code g).
Proof.
  unfold perform, runnable. destruct g as [c code]; simpl.
  destruct code as [|[st status d1 d2|d] k]; simpl; intros H; congruence.
Qed.

Lemma earliest_None gs : earliest gs = None -> pending gs = O.
Proof.
  induction gs as [|g rest IH]; simpl; [reflexivity|].
  destruct (earliest rest) as [[i c]|] eqn:E.
  - destruct (runnable g && (g_clock g <=? c)); discriminate.
  - unfold runnable. destruct (g_code g) eqn:Hc; [|discriminate].
    intros _. unfold pending in *. simpl. rewrite Hc. simpl. now apply IH.
Qed.

Lemma earliest_Some gs i c :
  earliest gs = Some (i, c) -> exists g, gs !! i = Some g /\ runnable g = true.
Proof.
  revert i c. induction gs as [|g rest IH]; simpl; intros i c H; [discriminate|].
  destruct (earliest rest) as [[j c']|] eqn:E.
  - destruct (runnable g && (g_clock g <=? c')) eqn:Hb.
    + injection H as <- <-. apply andb_true_iff in Hb as [Hr _]. eauto.
    + injection H as <- <-. simpl. eapply IH; eauto.
  - destruct (runnable g) eqn:Hr; [|discriminate].
    injection H as <- <-. eauto.
Qed.

Lemma insert_endClock (gs : list Goroutine) i g g' :
  gs !! i = Some g -> endClock g' = endClock g ->
  map endClock (<[i := g']> gs) = map endClock gs.
Proof.
  revert i. induction gs as [|h rest IH]; intros [|i] Hl He; simpl in *;
    try discriminate.
  - injection Hl as ->. now rewrite He.
  - f_equal. now apply IH.
Qed.

Lemma insert_pending (gs : list Goroutine) i g g' :
  gs !! i = Some g -> S (length (g_code g')) = length (g_code g) ->
  S (pending (<[i := g']> gs)) = pending gs.
Proof.
  unfold pending.
  revert i. induction gs as [|h rest IH]; intros [|i] Hl He; simpl in *;
    try discriminate.
  - injection Hl as ->. rewrite <- He. reflexivity.
  - rewrite <- (IH i Hl He). lia.
Qed.

Lemma earliest_min gs i c :
  earliest gs = Some (i, c) ->
  (exists g, gs !! i = Some g /\ g_clock g = c) /\
  Forall (fun g' => runnable g' = true -> c <= g_clock g') gs.
Proof.
  revert i c. induction gs as [|g rest IH]; simpl; intros i c H; [discriminate|].
  destruct (earliest rest) as [[j c']|] eqn:E.
  - destruct (IH j c' eq_refl) as [Hj Hall].
    destruct (runnable g && (g_clock g <=? c')) eqn:Hb.
    + injection H as <- <-. apply andb_true_iff in Hb as [_ Hle].
      apply Z.leb_le in Hle. split; [eauto|].
      constructor; [lia|]. eapply Forall_impl; [exact Hall|]. simpl.
      intros g' Hg' Hr. specialize (Hg' Hr). lia.
    + injection H as <- <-. split; [exact Hj|].
      constructor; [|exact Hall]. intros Hr. rewrite Hr in Hb. simpl in Hb.
      apply Z.leb_gt in Hb. lia.
  - destruct (runnable g) eqn:Hr; [|discriminate].
    injection H as <- <-. split; [eauto|].
    constructor; [lia|].
    apply earliest_None in E. clear -E.
    induction rest as [|h rest IH]; constructor.
    + unfold pending in E. simpl in E. unfold runnable.
      destruct (g_code h); [discriminate|]. simpl in E. lia.
    + apply IH. unfold pending in *. simpl in E. lia.
Qed.

(** The scheduler's step is one of the moves. *)
Lemma step_moves gs log s' : step gs log = Some s' -> moves (gs, log) s'.
Proof.
  unfold step. destruct (earliest gs) as [[i c]|] eqn:E; [|discriminate].
  destruct (earliest_Some _ _ _ E) as (g & Hl & Hr).
  destruct (earliest_min _ _ _ E) as [(g0 & Hl0 & Hc) Hall].
  rewrite Hl in Hl0. injection Hl0 as <-. rewrite Hl.
  destruct (perform g log) as [g' log'] eqn:Hp. intros H. injection H as <-.
  rewrite <- Hc in Hall. pose proof (moves_at gs log i g Hl Hr Hall) as M.
  rewrite Hp in M. exact M.
Qed.



Lemma step_Some gs log gs' log' :
  step gs log = Some (gs', log') ->
  map endClock gs' = map endClock gs /\ S (pending gs') = pending gs.
Proof.
  unfold step. destruct (earliest gs) as [[i c]|] eqn:E; [|discriminate].
  destruct (earliest_Some _ _ _ E) as (g & Hl & Hr). rewrite Hl.
  destruct (perform g log) as [g' l'] eqn:Hp. intros H. injection H as <- <-.
  split.
  - eapply insert_endClock; eauto.
    change g' with (fst (g', l')). rewrite <- Hp. apply perform_endClock.
  - eapply insert_pending; eauto.
    change g' with (fst (g', l')). rewrite <- Hp. now apply perform_pending.
Qed.

Lemma step_None gs log : step gs log = None -> pending gs = O.
Proof.
  unfold step. destruct (earliest gs) as [[i c]|] eqn:E.
  - destruct (earliest_Some _ _ _ E) as (g & Hl & Hr). rewrite Hl.
    destruct (perform g log); discriminate.
  - intros _. now apply earliest_None.
Qed.

(** With fuel for every pending action, [run] ends with all goroutines done,
    each at the instant its sleeps add up to. *)
Lemma run_complete fuel gs log :
  (pending gs <= fuel)%nat ->
  pending (fst (run fuel gs log)) = O /\
  map endClock (fst (run fuel gs log)) = map endClock gs.
Proof.
  revert gs log. induction fuel as [|fuel IH]; intros gs log Hf; simpl.
  - split; [lia | reflexivity].
  - destruct (step gs log) as [[gs' log']|] eqn:Hs.
    + destruct (step_Some _ _ _ _ Hs) as [Hc Hp].
      destruct (IH gs' log' ltac:(lia)) as [H1 H2]. split; [exact H1|congruence].
    + split; [now apply (step_None _ log) | reflexivity].
Qed.

Lemma pending_0_clock gs : pending gs = O -> map g_clock gs = map endClock gs.
Proof.
  unfold pending. induction gs as [|g rest IH]; simpl; intros H; [reflexivity|].
  assert (Hg : length (g_code g) = O) by lia.
  destruct (g_code g) eqn:Hc; [|discriminate]. f_equal.
  - unfold endClock. rewrite Hc. simpl. lia.
  - apply IH. lia.
Qed.

Lemma Wait_fold t0 gs : Wait t0 gs = fold_right Z.max t0 (map g_clock gs).
Proof. unfold Wait. induction gs; simpl; congruence. Qed.

Lemma sleeps_PlayNote m n whole : sleeps (PlayNote m n whole) = noteDuration whole n.
Proof.
  unfold PlayNote, noteDuration. destruct (IsRest n); simpl; lia.
Qed.

Lemma fold_max_shift t0 (ds : list Z) :
  fold_right Z.max t0 (map (fun d => t0 + d) ds) = t0 + fold_right Z.max 0 ds.
Proof. induction ds as [|d ds IH]; simpl; [lia | rewrite IH; lia]. Qed.

Lemma spawn_endClock m whole group t0 :
  fold_right Z.max t0 (map endClock (spawn m whole group t0))
  = t0 + groupDuration whole group.
Proof.
  unfold groupDuration. rewrite <- fold_max_shift. f_equal.
  unfold spawn. rewrite !map_map. apply map_ext. intros n.
  unfold endClock. simpl. now rewrite sleeps_PlayNote.
Qed.


Lemma run_moves fuel gs log : rtc moves (gs, log) (run fuel gs log).
Proof.
  revert gs log. induction fuel as [|fuel IH]; intros gs log; simpl.
  - apply rtc_refl.
  - destruct (step gs log) as [[gs' log']|] eqn:Hs; [|apply rtc_refl].
    eapply rtc_l; [apply step_moves; exact Hs | apply IH].
Qed.

(** The join of a group's goroutines returns after the longest sleeper. *)
Lemma playGroup_now m whole group w :
  now (playGroup m whole group w) = now w + groupDuration whole group.
Proof.
  unfold playGroup, groupDuration.
  set (gs := spawn m whole group (now w)).
  destruct (run (pending gs) gs (written w)) as [gs' log] eqn:Hr.
  destruct (run_complete (pending gs) gs (written w) ltac:(lia)) as [H0 Hc].
  rewrite Hr in H0, Hc. simpl in *.
  rewrite Wait_fold, (pending_0_clock _ H0), Hc.
  apply spawn_endClock.
Qed.

(** Every write of a group is made between the spawn and the join. *)
Lemma sleeps_nonneg code : 0 <= sleeps code.
Proof. induction code as [|[st status d1 d2|d] k IH]; simpl; lia. Qed.

Lemma perform_between t0 T g log :
  between t0 T g ->
  between t0 T (fst (perform g log)) /\
  exists new, snd (perform g log) = log ++ new /\
              Forall (fun wr => t0 <= w_at wr <= T) new.
Proof.
  unfold between, perform, endClock. destruct g as [c code]; simpl.
  destruct code as [|[st status d1 d2|d] k]; simpl; intros [H1 H2].
  - split; [lia|]. exists []. rewrite app_nil_r. auto.
  - pose proof (sleeps_nonneg k). split; [lia|].
    eexists; split; [reflexivity|]. repeat constructor; simpl; lia.
  - pose proof (sleeps_nonneg k). split; [lia|].
    exists []. rewrite app_nil_r. auto.
Qed.

Lemma run_between t0 T fuel gs log :
  Forall (between t0 T) gs ->
  exists new, snd (run fuel gs log) = log ++ new /\
              Forall (fun wr => t0 <= w_at wr <= T) new.
Proof.
  revert gs log. induction fuel as [|fuel IH]; intros gs log Hgs; simpl.
  - exists []. rewrite app_nil_r. auto.
  - unfold step. destruct (earliest gs) as [[i c]|] eqn:E; simpl.
    2:{ exists []. rewrite app_nil_r. auto. }
    destruct (gs !! i) as [g|] eqn:Hl; simpl.
    2:{ exists []. rewrite app_nil_r. auto. }
    destruct (perform g log) as [g' log'] eqn:Hp.
    destruct (perform_between t0 T g log (Forall_lookup_1 _ _ _ _ Hgs Hl))
      as (Hg' & new1 & Hlog & Hnew1).
    rewrite Hp in Hg', Hlog. simpl in Hg', Hlog.
    destruct (IH (<[i := g']> gs) log' (Forall_insert _ _ _ _ Hgs Hg'))
      as (new2 & Hlog2 & Hnew2).
    exists (new1 ++ new2). rewrite Hlog2, Hlog, app_assoc. split; [reflexivity|].
    apply Forall_app; auto.
Qed.

Lemma groupDuration_upper whole group :
  Forall (fun n => noteDuration whole n <= groupDuration whole group) group.
Proof.
  unfold groupDuration. induction group as [|n rest IH]; simpl; constructor.
  - lia.
  - eapply Forall_impl; [exact IH|]. simpl. intros; lia.
Qed.

Lemma groupDuration_nonneg whole group : 0 <= groupDuration whole group.
Proof. unfold groupDuration. induction group; simpl; lia. Qed.



Lemma spawn_between m whole group t0 :
  Forall (between t0 (t0 + groupDuration whole group)) (spawn m whole group t0).
Proof.
  unfold spawn. apply Forall_map.
  eapply Forall_impl; [apply (groupDuration_upper whole group)|].
  intros n Hn. simpl in Hn. unfold between, endClock. simpl.
  rewrite sleeps_PlayNote. lia.
Qed.

Lemma print_now p w : now (print p w) = now w.
Proof. reflexivity. Qed.

Lemma echoGroup_now g w : now (echoGroup g w) = now w.
Proof. unfold echoGroup. destruct g as [|n [|n' g]]; reflexivity. Qed.

Lemma groups_now (m : Midi.t) (whole : Z) (echo : bool) (seq : list (list Note)) (w : World) :
  now (fold_left
         (fun w eachGroup =>
            playGroup m whole eachGroup (if echo then echoGroup eachGroup w else w))
         seq w)
  = now w + sequenceDuration whole seq.
Proof.
  unfold sequenceDuration. revert w.
  induction seq as [|g rest IH]; intros w; simpl; [lia|].
  rewrite IH, playGroup_now. destruct echo; rewrite ?echoGroup_now; lia.
Qed.

Lemma Play_now m seq echo w :
  enabled m = true ->
  now (Play m seq echo w) = now w + sequenceDuration (wholeNoteDuration (bpm m)) seq.
Proof.
  intros He. unfold Play. rewrite He. simpl.
  destruct echo; rewrite ?print_now.
  - apply (groups_now m _ true).
  - apply (groups_now m _ false).
Qed.





(** C1: on an enabled device, a [Play] that starts at [beginAt] ends at
    [beginAt] plus the sum of the durations of the groups, taken in order;
    a [Play] issued right after it starts at that instant and ends its own
    sum of durations later, and two such calls in a row do what one call on
    the concatenated sequence does. *)
Theorem Play_endingAt (m : Midi.t) (seq next : list (list Note)) (echo : bool)
    (beginAt : Z) (log : list Write) (printed : list Printed) :
  enabled m = true ->
  let whole := wholeNoteDuration (bpm m) in
  let w := mkWorld beginAt log printed in
  now (Play m seq echo w) = beginAt + sequenceDuration whole seq /\
  now (Play m next echo (Play m seq echo w))
  = beginAt + sequenceDuration whole seq + sequenceDuration whole next /\
  Play m next false (Play m seq false w) = Play m (seq ++ next) false w.
Proof.
  intros He whole w. repeat apply conj.
  - apply (Play_now m seq echo w He).
  - rewrite (Play_now m next echo _ He), (Play_now m seq echo w He). reflexivity.
  - unfold Play. rewrite He. simpl. now rewrite fold_left_app.
Qed.

Lemma Play_endingAt_witness :
  now (Play at120 example8 false (mkWorld 0 [] [])) = 3000 * Millisecond.
Proof.
  rewrite (proj1 (Play_endingAt at120 example8 [] false 0 [] [] eq_refl)).
  vm_compute. reflexivity.
Defined.



(** C8: on a disabled device [Play] returns at once and leaves the world as
    it found it: nothing is written, nothing is printed, and the clock still
    shows [beginAt]; [Play] has no error to return. *)
Theorem Play_disabled (m : Midi.t) (seq : list (list Note)) (echo : bool) (w : World) :
  enabled m = false -> Play m seq echo w = w.
Proof. intros He. unfold Play. now rewrite He. Qed.

Lemma Play_disabled_witness :
  Play disabled120 example8 true (mkWorld 5 [] []) = mkWorld 5 [] [].
Proof. apply Play_disabled. reflexivity. Defined.

(** *** Tempo *)

Lemma positive_not_leb v : positive_float v = true -> SFleb v float_zero = false.
Proof.
  unfold positive_float, SFltb, SFleb, float_zero.
  destruct v as [s|s| |s mant e]; try destruct s; simpl; congruence.
Qed.

Lemma not_leb_positive v :
  v <> S754_nan -> SFleb v float_zero = false -> positive_float v = true.
Proof.
  unfold positive_float, SFltb, SFleb, float_zero.
  destruct v as [s|s| |s mant e]; try destruct s; simpl; congruence.
Qed.

Lemma SetBeatsPerMinute_keeps_positive m v :
  v <> S754_nan -> positive_float (bpm m) = true ->
  positive_float (bpm (SetBeatsPerMinute m v)) = true.
Proof.
  intros Hv Hm. unfold SetBeatsPerMinute.
  destruct (SFleb v float_zero) eqn:E; [exact Hm|]. simpl. now apply not_leb_positive.
Qed.

Lemma Open_positive d s m : Open d s = Some m -> positive_float (bpm m) = true.
Proof.
  unfold Open. destruct (d =? -1); [discriminate|]. destruct s; [|discriminate].
  intros H. injection H as <-. reflexivity.
Qed.

(** C7, as the code has it: a value that is [<= 0] leaves the device as it
    was; a value that is [> 0] becomes the stored BPM; and from a device that
    [Open] returned, the BPM stays strictly positive through every sequence
    of assignments none of which is NaN. *)
Theorem SetBeatsPerMinute_guard (m : Midi.t) (v : spec_float) :
  (SFleb v float_zero = true -> SetBeatsPerMinute m v = m) /\
  (positive_float v = true -> bpm (SetBeatsPerMinute m v) = v) /\
  (v <> S754_nan -> positive_float (bpm m) = true ->
   positive_float (bpm (SetBeatsPerMinute m v)) = true) /\
  (forall d s m0 vs,
     Open d s = Some m0 -> Forall (fun x => x <> S754_nan) vs ->
     positive_float (bpm (fold_left SetBeatsPerMinute vs m0)) = true).
Proof.
  repeat apply conj.
  - intros H. unfold SetBeatsPerMinute. now rewrite H.
  - intros H. unfold SetBeatsPerMinute. now rewrite (positive_not_leb v H).
  - apply SetBeatsPerMinute_keeps_positive.
  - intros d s m0 vs Ho Hvs. apply Open_positive in Ho. revert m0 Ho.
    induction Hvs as [|x vs Hx Hvs IH]; intros m0 Ho; simpl; [exact Ho|].
    apply IH. now apply SetBeatsPerMinute_keeps_positive.
Qed.

Lemma SetBeatsPerMinute_guard_witness :
  SetBeatsPerMinute at120 (float64_of_Z (-5)) = at120 /\
  bpm (SetBeatsPerMinute at120 (float64_of_Z 90)) = float64_of_Z 90.
Proof.
  split.
  - exact (proj1 (SetBeatsPerMinute_guard at120 (float64_of_Z (-5))) eq_refl).
  - exact (proj1 (proj2 (SetBeatsPerMinute_guard at120 (float64_of_Z 90))) eq_refl).
Defined.

(** C7 as stated fails: NaN is neither [<= 0] nor [> 0]; the guard lets it
    through, and the stored BPM is then not strictly positive. *)
Lemma SetBeatsPerMinute_nan :
  positive_float (bpm at120) = true /\
  SFleb S754_nan float_zero = false /\
  positive_float S754_nan = false /\
  bpm (SetBeatsPerMinute at120 S754_nan) = S754_nan /\
  positive_float (bpm (SetBeatsPerMinute at120 S754_nan)) = false.
Proof. repeat split. Qed.

(** *** Durations *)






End MidiFacts.

(** ** Input capture *)

Module ListenFacts.
Import Listen.

Lemma NewListen_wf device name store : wf (NewListen device name store).
Proof. unfold wf, min_int64, max_int64; simpl; lia. Qed.

Lemma NoteOn_wf l n : wf (fst (NoteOn l n)).
Proof. unfold wf; simpl. apply wrap64_range. Qed.

Lemma isNoteOnCount_spec l nr c :
  isNoteOnCount l nr c = true <-> notesOn l !! nr = Some c.
Proof.
  unfold isNoteOnCount. destruct (notesOn l !! nr) as [count|]; split; intros H;
    try discriminate.
  - apply Z.eqb_eq in H. congruence.
  - injection H as ->. apply Z.eqb_refl.
Qed.

Lemma NoteOff_absent l n : notesOn l !! MIDI n = None -> NoteOff l n = l.
Proof.
  intros H. destruct l as [d v r m c s]; unfold NoteOff; simpl in *.
  f_equal. by apply delete_id.
Qed.

Lemma NoteOff_clears l n : notesOn (NoteOff l n) !! MIDI n = None.
Proof. simpl. apply lookup_delete_eq. Qed.

Lemma handle_wf l e : wf l -> wf (handle l e).
Proof. destruct e; simpl; intros H; [apply NoteOn_wf | exact H]. Qed.

Lemma strikes_bounds es : 0 <= strikes es <= Z.of_nat (length es).
Proof. induction es as [|[n|n] es IH]; simpl; lia. Qed.

(** Along a trace the counter grows by one, modulo [2^64], at every
    note-on. *)
Lemma trace_count es l :
  wrap64 (noteChangeCount (fold_left handle es l))
  = wrap64 (noteChangeCount l + strikes es).
Proof.
  revert l. induction es as [|[n|n] es IH]; intros l; simpl.
  - f_equal. lia.
  - rewrite IH. simpl. rewrite wrap64_add_l. f_equal. lia.
  - rewrite IH. reflexivity.
Qed.

(** C6: the guard captured by a [NoteOn] of MIDI number [m] that recorded
    counter [c] is true exactly in the listener states where [notesOn[m]] is
    present and equal to [c].  It is true right after that [NoteOn]; it is
    false after a [NoteOff] of [m]; and after any further events (fewer than
    [2^64 - 1] of them), among them such a [NoteOff], a new [NoteOn] of [m]
    records a counter different from [c] and the guard is false. *)
Theorem NoteOn_guard (l : Listen.t) (n again : Note) (es : list event) :
  MIDI again = MIDI n ->
  Z.of_nat (length es) < 2 ^ 64 - 1 ->
  let l1 := fst (NoteOn l n) in
  let cond := snd (NoteOn l n) in
  let c := noteChangeCount l1 in
  let l3 := fst (NoteOn (fold_left handle es l1) again) in
  (forall cur, cond cur = true <-> notesOn cur !! MIDI n = Some c) /\
  cond l1 = true /\
  (forall off, MIDI off = MIDI n -> cond (NoteOff l1 off) = false) /\
  noteChangeCount l3 <> c /\
  notesOn l3 !! MIDI n = Some (noteChangeCount l3) /\
  cond l3 = false.
Proof.
  intros Hagain Hlen l1 cond c l3.
  assert (Hspec : forall cur, cond cur = true <-> notesOn cur !! MIDI n = Some c).
  { intros cur. subst cond c l1. simpl. apply isNoteOnCount_spec. }
  assert (Hc : noteChangeCount l3 <> c).
  { subst l3. simpl. rewrite <- wrap64_add_l, trace_count, wrap64_add_l.
    replace (noteChangeCount l1 + strikes es + 1) with (c + (strikes es + 1))
      by (subst c; lia).
    pose proof (strikes_bounds es).
    apply wrap64_add_neq; [apply (NoteOn_wf l n) | lia]. }
  assert (H3 : notesOn l3 !! MIDI n = Some (noteChangeCount l3)).
  { subst l3. simpl. rewrite Hagain. apply lookup_insert_eq. }
  repeat apply conj.
  - exact Hspec.
  - apply Hspec. subst l1. simpl. apply lookup_insert_eq.
  - intros off Hoff. apply not_true_is_false. intros H. apply Hspec in H.
    simpl in H. rewrite Hoff, lookup_delete_eq in H. discriminate.
  - exact Hc.
  - exact H3.
  - apply not_true_is_false. intros H. apply Hspec in H.
    rewrite H3 in H. congruence.
Qed.

Lemma NoteOn_guard_witness :
  let l := NewListen 1 "note" ∅ in
  snd (NoteOn l middleC) (fst (NoteOn l middleC)) = true /\
  snd (NoteOn l middleC)
      (fst (NoteOn (NoteOff (fst (NoteOn l middleC)) middleC) middleC)) = false.
Proof.
  intros l.
  assert (Hlen : Z.of_nat (length [Off middleC]) < 2 ^ 64 - 1) by (simpl; lia).
  pose proof (NoteOn_guard l middleC middleC [Off middleC] eq_refl Hlen) as H.
  destruct H as (_ & H1 & _ & _ & _ & H3). split; [exact H1 | exact H3].
Defined.

(** C10: a [NoteOff] for a MIDI number that is not in [notesOn] leaves the
    whole listener state as it was, and a second [NoteOff] for the same pitch
    changes nothing after the first; [NoteOff] is a total function, it has no
    failure to report. *)
Theorem NoteOff_absent_unchanged (l : Listen.t) (n : Note) :
  (notesOn l !! MIDI n = None -> NoteOff l n = l) /\
  NoteOff (NoteOff l n) n = NoteOff l n.
Proof.
  split.
  - apply NoteOff_absent.
  - apply NoteOff_absent, NoteOff_clears.
Qed.

Lemma NoteOff_absent_unchanged_witness :
  NoteOff (NewListen 1 "note" ∅) middleC = NewListen 1 "note" ∅.
Proof.
  exact (proj1 (NoteOff_absent_unchanged (NewListen 1 "note" ∅) middleC) eq_refl).
Defined.

End ListenFacts.

(** ** Sustain pedal *)

Module PedalFacts.
Import Midi Pedal.

Section Queue.
Context {E : Type}.
Implicit Types (q pre post : list (Z * E)) (tl : Timeline E).

Lemma due_later (at_ : Z) q : q = due at_ q ++ later at_ q.
Proof.
  induction q as [|[t e] rest IH]; simpl; [reflexivity|].
  destruct (t <=? at_); simpl; [now f_equal | reflexivity].
Qed.

Lemma due_le (at_ : Z) q : Forall (fun p => fst p <= at_) (due at_ q).
Proof.
  induction q as [|[t e] rest IH]; simpl; [constructor|].
  destruct (Z.leb_spec t at_); constructor; auto.
Qed.

Lemma later_gt (at_ : Z) q :
  ordered q -> Forall (fun p => at_ < fst p) (later at_ q).
Proof.
  induction q as [|[t e] rest IH]; simpl; [constructor|].
  intros [Hall Hord]. destruct (Z.leb_spec t at_); [auto|].
  constructor; [assumption|].
  eapply Forall_impl; [exact Hall|]. simpl. intros; lia.
Qed.

(** [enqueue] puts the event after everything due no later than it. *)
Lemma enqueue_split (event : E) (at_ : Z) q :
  enqueue event at_ q = due at_ q ++ (at_, event) :: later at_ q.
Proof.
  induction q as [|[t e] rest IH]; simpl; [reflexivity|].
  destruct (t <=? at_); simpl; [now f_equal | reflexivity].
Qed.

Lemma due_app_same (at_ : Z) pre post (event : E) :
  Forall (fun p => fst p <= at_) pre ->
  due at_ (pre ++ (at_, event) :: post) = pre ++ (at_, event) :: due at_ post /\
  later at_ (pre ++ (at_, event) :: post) = later at_ post.
Proof.
  induction 1 as [|[t e] pre Ht Hpre IH]; simpl in *.
  - rewrite Z.leb_refl. auto.
  - destruct (Z.leb_spec t at_); [|lia]. destruct IH as [-> ->]. auto.
Qed.

Lemma due_later_idem (at_ : Z) q :
  due at_ (later at_ q) = [] /\ later at_ (later at_ q) = later at_ q.
Proof.
  induction q as [|[t e] rest IH]; simpl; [auto|].
  destruct (t <=? at_) eqn:Ht; [exact IH|]. simpl. rewrite Ht. auto.
Qed.

(** Two events enqueued one after the other for the same instant end up
    next to each other, in that order. *)
Lemma enqueue_twice (first second : E) (at_ : Z) q :
  enqueue second at_ (enqueue first at_ q)
  = due at_ q ++ (at_, first) :: (at_, second) :: later at_ q.
Proof.
  rewrite (enqueue_split second), (enqueue_split first).
  destruct (due_app_same at_ (due at_ q) (later at_ q) first (due_le at_ q))
    as [-> ->].
  destruct (due_later_idem at_ q) as [-> ->].
  rewrite <- app_assoc. reflexivity.
Qed.

Lemma enqueue_ordered (event : E) (at_ : Z) q :
  ordered q -> ordered (enqueue event at_ q).
Proof.
  induction q as [|[t e] rest IH]; simpl; [auto|].
  intros [Hall Hord]. destruct (Z.leb_spec t at_); simpl.
  - split; [|auto]. rewrite enqueue_split.
    rewrite (due_later at_ rest) in Hall. apply Forall_app in Hall as [H1 H2].
    apply Forall_app. split; [exact H1|]. constructor; [simpl; lia | exact H2].
  - repeat split; auto. constructor; [simpl; lia|].
    eapply Forall_impl; [exact Hall|]. simpl. intros; lia.
Qed.

Lemma pendingQueue_Schedule (event : E) (at_ : Z) tl :
  pendingQueue (Schedule event at_ tl) = enqueue event at_ (pendingQueue tl).
Proof. unfold pendingQueue, Schedule. now rewrite fold_left_app. Qed.

Lemma pendingQueue_ordered tl : ordered (pendingQueue tl).
Proof.
  unfold pendingQueue.
  assert (H : forall q, ordered q ->
            ordered (fold_left (fun q p => enqueue (snd p) (fst p) q) tl q)).
  { induction tl as [|[t e] tl IH]; intros q Hq; simpl; [exact Hq|].
    apply IH. now apply enqueue_ordered. }
  apply H. exact I.
Qed.

End Queue.

Lemma dispatch_app (pre post : list (Z * pedalEvent)) (w : World) :
  dispatch (pre ++ post) w = dispatch post (dispatch pre w).
Proof.
  revert w. induction pre as [|[t e] pre IH]; intros w; simpl; [reflexivity|].
  apply IH.
Qed.

(** Fired at the same instant, the up event writes before the down event. *)
Lemma dispatch_up_down (ch st t : Z) (w : World) :
  let status := Z.lor controlChange (wrap64 (ch - 1)) in
  let fireAt := Z.max (now w) t in
  dispatch [(t, pedalUp ch st); (t, pedalDown ch st)] w
  = mkWorld fireAt
      (written w ++ [mkWrite fireAt st status sustainPedal 0;
                     mkWrite fireAt st status sustainPedal 127])
      (console w).
Proof.
  simpl. unfold Handle, pedalEvent_TimelineEvent, pedalEvent_Handle. simpl.
  replace (Z.max (Z.max (now w) t) t) with (Z.max (now w) t) by lia.
  now rewrite <- app_assoc.
Qed.

Lemma handledPedalChange_marker (m : Midi.t) (ch : Z) (tl : Timeline pedalEvent)
    (t : Z) (note : Note) :
  handledPedalChange m ch tl t [note] =
  match note_pedal note with
  | PedalUp => (Schedule (pedalUp ch (stream m)) t tl, true)
  | PedalUpDown =>
      (Schedule (pedalDown ch (stream m)) t (Schedule (pedalUp ch (stream m)) t tl), true)
  | PedalDown => (Schedule (pedalDown ch (stream m)) t tl, false)
  | PedalNone => (tl, false)
  end.
Proof.
  unfold handledPedalChange, IsPedalUp, IsPedalUpDown, IsPedalDown. simpl.
  destruct (note_pedal note); reflexivity.
Qed.

(** C5: handling an up-then-down pedal note at moment [t] submits exactly
    two events to the timeline, both for [t], the up event first and the
    down event second, and reports the group as handled.  In the queue of a
    timeline that breaks ties first-come first-served the two then stand
    next to each other, up before down, after everything due by [t] and
    before everything due later, and when they fire the up write precedes
    the down write. *)
Theorem handledPedalChange_up_down (m : Midi.t) (ch : Z) (tl : Timeline pedalEvent)
    (t : Z) (note : Note) :
  IsPedalUpDown note = true ->
  let up := pedalUp ch (stream m) in
  let down := pedalDown ch (stream m) in
  let q := pendingQueue tl in
  handledPedalChange m ch tl t [note] = (tl ++ [(t, up); (t, down)], true) /\
  pendingQueue (fst (handledPedalChange m ch tl t [note]))
  = due t q ++ (t, up) :: (t, down) :: later t q /\
  q = due t q ++ later t q /\
  Forall (fun p => fst p <= t) (due t q) /\
  Forall (fun p => t < fst p) (later t q) /\
  (forall w,
     dispatch (pendingQueue (fst (handledPedalChange m ch tl t [note]))) w
     = dispatch (later t q) (dispatch [(t, up); (t, down)] (dispatch (due t q) w))) /\
  (forall w,
     written (dispatch [(t, up); (t, down)] w)
     = written w
       ++ [mkWrite (Z.max (now w) t) (stream m)
             (Z.lor controlChange (wrap64 (ch - 1))) sustainPedal 0;
           mkWrite (Z.max (now w) t) (stream m)
             (Z.lor controlChange (wrap64 (ch - 1))) sustainPedal 127]).
Proof.
  intros Hud up down q.
  assert (Hm : note_pedal note = PedalUpDown).
  { unfold IsPedalUpDown in Hud. destruct (note_pedal note); congruence. }
  assert (Hh : handledPedalChange m ch tl t [note] = (tl ++ [(t, up); (t, down)], true)).
  { rewrite handledPedalChange_marker, Hm. unfold Schedule.
    now rewrite <- app_assoc. }
  assert (Hq : pendingQueue (fst (handledPedalChange m ch tl t [note]))
               = due t q ++ (t, up) :: (t, down) :: later t q).
  { rewrite handledPedalChange_marker, Hm. simpl.
    rewrite !pendingQueue_Schedule. apply enqueue_twice. }
  repeat apply conj.
  - exact Hh.
  - exact Hq.
  - apply due_later.
  - apply due_le.
  - apply later_gt, pendingQueue_ordered.
  - intros w. rewrite Hq, dispatch_app.
    change ((t, up) :: (t, down) :: later t q)
      with ([(t, up); (t, down)] ++ later t q).
    now rewrite dispatch_app.
  - intros w. subst up down. now rewrite dispatch_up_down.
Qed.

Lemma handledPedalChange_up_down_witness :
  handledPedalChange at120 1 [(20, pedalUp 1 7); (5, pedalDown 1 7)] 10
    [pedalNote PedalUpDown]
  = ([(20, pedalUp 1 7); (5, pedalDown 1 7); (10, pedalUp 1 7); (10, pedalDown 1 7)],
     true).
Proof.
  exact (proj1 (handledPedalChange_up_down at120 1
                  [(20, pedalUp 1 7); (5, pedalDown 1 7)] 10
                  (pedalNote PedalUpDown) eq_refl)).
Defined.

(** C2, at a pedal-down note: the down event is submitted for the note's
    moment and, when fired, writes a Control-Change for controller 64 with
    value 127, but the handler answers false, where it answers true for the
    up and the up-then-down markers. *)
Theorem handledPedalChange_down :
  handledPedalChange at120 1 [] 0 [pedalNote PedalDown]
  = ([(0, pedalDown 1 7)], false) /\
  handledPedalChange at120 1 [] 0 [pedalNote PedalUp]
  = ([(0, pedalUp 1 7)], true) /\
  handledPedalChange at120 1 [] 0 [pedalNote PedalUpDown]
  = ([(0, pedalUp 1 7); (0, pedalDown 1 7)], true) /\
  written (dispatch [(0, pedalDown 1 7)] (mkWorld 0 [] []))
  = [mkWrite 0 7 0xB0 64 127] /\
  written (dispatch [(0, pedalUp 1 7)] (mkWorld 0 [] []))
  = [mkWrite 0 7 0xB0 64 0].
Proof. repeat split. Qed.

End PedalFacts.

(** ** Device registry *)

Module RegistryFacts.
Import DeviceRegistry.

Section Registry.
Variable StreamRegistry : Type.
Variable output : StreamRegistry -> Z -> option Z * StreamRegistry.

Local Abbreviation Output := (Output StreamRegistry output).
Local Abbreviation Output_step := (Output_step StreamRegistry output).
Local Abbreviation registry := (DeviceRegistry.t StreamRegistry).

(** A call that finds the id cached returns the cached device and leaves the
    registry alone. *)
Lemma Output_cached (d : registry) (id : Z) (od : nat) :
  out _ d !! id = Some od -> Output d id = (Some od, d).
Proof. intros H. unfold Output, DeviceRegistry.Output, Output_step. simpl. now rewrite H. Qed.

(** A call that runs alone and returns a device leaves it cached: the next
    call that runs alone returns the same device. *)
Lemma Output_caches (d d1 : registry) (id : Z) (od : nat) :
  Output d id = (Some od, d1) -> out _ d1 !! id = Some od.
Proof.
  unfold Output, DeviceRegistry.Output, Output_step. simpl.
  destruct (out _ d !! id) as [p|] eqn:Hc; simpl.
  - intros H. injection H as <- <-. exact Hc.
  - destruct (output (streamRegistry _ d) id) as [[midiOut|] sr]; simpl;
      [|discriminate].
    intros H. injection H as <- <-. simpl. apply lookup_insert_eq.
Qed.

Lemma Output_again (d d1 : registry) (id : Z) (od : nat) :
  Output d id = (Some od, d1) -> Output d1 id = (Some od, d1).
Proof. intros H. apply Output_cached. exact (Output_caches _ _ _ _ H). Qed.

(** Two calls that both miss under the shared lock before either takes the
    exclusive lock each allocate a device of their own, whatever the stream
    registry answers, as long as it answers with a stream. *)
Lemma Output_race (d : registry) (id s1 s2 : Z) (sr1 sr2 : StreamRegistry) :
  out _ d !! id = None ->
  output (streamRegistry _ d) id = (Some s1, sr1) ->
  output sr1 id = (Some s2, sr2) ->
  fst (interleave _ output [0; 1; 0; 1]%nat
         [mkCall id AtRLock; mkCall id AtRLock] d)
  = [mkCall id (Returned (Some (length (heap _ d))));
     mkCall id (Returned (Some (S (length (heap _ d)))))].
Proof.
  intros Hc H1 H2. simpl. unfold DeviceRegistry.Output_step. simpl.
  rewrite Hc. simpl. rewrite Hc. simpl. rewrite H1. simpl. rewrite H2. simpl.
  rewrite length_alter, length_app. simpl.
  repeat f_equal. lia.
Qed.

End Registry.

(** C9, at two calls of [Output(3)] on a registry that has not opened device
    3, each running its shared-lock lookup before either takes the exclusive
    lock: the exclusive section does not look at the cache again, the two
    callers are handed two different devices, both allocated and started, and
    the cache keeps the second; run one after the other, the same two calls
    return the same device. *)
Theorem Output_concurrent_first_access :
  let calls := [mkCall 3 AtRLock; mkCall 3 AtRLock] in
  let raced := interleave _ cachingOutput [0; 1; 0; 1]%nat calls emptyRegistry in
  let serial := interleave _ cachingOutput [0; 0; 1; 1]%nat calls emptyRegistry in
  fst raced = [mkCall 3 (Returned (Some 0%nat)); mkCall 3 (Returned (Some 1%nat))] /\
  heap _ (snd raced)
  = [mkOutputDevice 3 1003 1 false true; mkOutputDevice 3 1003 1 false true] /\
  out _ (snd raced) !! 3 = Some 1%nat /\
  fst serial = [mkCall 3 (Returned (Some 0%nat)); mkCall 3 (Returned (Some 0%nat))] /\
  heap _ (snd serial) = [mkOutputDevice 3 1003 1 false true].
Proof. repeat split. Qed.

End RegistryFacts.

(** ** What [Play] writes, and when *)

Module PlayFacts.
Import Midi MidiFacts.

Lemma countLog_app P l1 l2 : countLog P (l1 ++ l2) = (countLog P l1 + countLog P l2)%nat.
Proof. unfold countLog. now rewrite List.filter_app, length_app. Qed.

Lemma countPending_insert P (gs : list Goroutine) i g g' :
  gs !! i = Some g ->
  (countPending P (<[i := g']> gs) + countCode P (g_code g)
   = countPending P gs + countCode P (g_code g'))%nat.
Proof.
  unfold countPending.
  revert i. induction gs as [|h rest IH]; intros [|i] Hl; simpl in *; try discriminate.
  - injection Hl as ->. lia.
  - specialize (IH i Hl). lia.
Qed.

Lemma perform_count P g log :
  exists new, snd (perform g log) = log ++ new /\
              (countLog P new + countCode P (g_code (fst (perform g log)))
               = countCode P (g_code g))%nat.
Proof.
  unfold perform. destruct g as [c code]; simpl.
  destruct code as [|[st status d1 d2|d] k]; simpl.
  - exists []. now rewrite app_nil_r.
  - eexists; split; [reflexivity|].
    unfold countLog, countCode, carries. simpl. destruct (P st status d1 d2); simpl; lia.
  - exists []. now rewrite app_nil_r.
Qed.

Lemma pending_0_count P gs : pending gs = O -> countPending P gs = O.
Proof.
  unfold pending, countPending. induction gs as [|g rest IH]; simpl; intros H; [reflexivity|].
  destruct (g_code g) eqn:Hc; simpl in *; [apply IH; lia | lia].
Qed.

(** A run with fuel for every pending action logs exactly the writes that
    stand in the goroutines' code. *)
Lemma run_writes fuel gs log :
  (pending gs <= fuel)%nat ->
  exists new, snd (run fuel gs log) = log ++ new /\
              forall P, countLog P new = countPending P gs.
Proof.
  revert gs log. induction fuel as [|fuel IH]; intros gs log Hf; simpl.
  - exists []. rewrite app_nil_r. split; [reflexivity|].
    intros P. rewrite pending_0_count by lia. reflexivity.
  - destruct (step gs log) as [[gs' log']|] eqn:Hs.
    + destruct (step_Some _ _ _ _ Hs) as [_ Hp].
      destruct (IH gs' log' ltac:(lia)) as (new2 & E2 & C2).
      unfold step in Hs. destruct (earliest gs) as [[i c]|]; [|discriminate].
      destruct (gs !! i) as [g|] eqn:Hl; [|discriminate].
      destruct (perform g log) as [g' l'] eqn:Hq. injection Hs as <- <-.
      pose proof (fun P => perform_count P g log) as Hc. rewrite Hq in Hc. simpl in Hc.
      destruct (Hc (fun _ _ _ _ => true)) as (new1 & E1 & _).
      exists (new1 ++ new2). split; [rewrite E2, E1; now rewrite app_assoc|].
      intros P. destruct (Hc P) as (new1' & E1' & C1).
      assert (new1' = new1) by (rewrite E1 in E1'; now apply app_inv_head in E1').
      subst new1'. rewrite countLog_app, C2.
      pose proof (countPending_insert P gs i g g' Hl). lia.
    + exists []. rewrite app_nil_r. split; [reflexivity|].
      intros P. rewrite pending_0_count by (now apply (step_None _ log)). reflexivity.
Qed.

(** What one note contributes: nothing for a rest, its Note-On and its
    Note-Off otherwise. *)
Lemma countCode_PlayNote P m n whole :
  countCode P (PlayNote m n whole)
  = if IsRest n then O
    else Nat.add (Nat.b2n (P (stream m) noteOn (MIDI n) 100))
                 (Nat.b2n (P (stream m) noteOff (MIDI n) 100)).
Proof.
  unfold PlayNote, countCode. destruct (IsRest n); simpl; [reflexivity|].
  destruct (P (stream m) noteOn (MIDI n) 100), (P (stream m) noteOff (MIDI n) 100);
    reflexivity.
Qed.

Lemma countPending_spawn P m whole group t0 :
  countPending P (spawn m whole group t0)
  = list_sum (map (fun n => countCode P (PlayNote m n 0)) group).
Proof.
  unfold countPending, spawn. rewrite map_map. f_equal. apply map_ext. intros n. simpl.
  now rewrite !countCode_PlayNote.
Qed.

Lemma playGroup_writes m whole group w :
  exists new, written (playGroup m whole group w) = written w ++ new /\
              forall P, countLog P new
                        = list_sum (map (fun n => countCode P (PlayNote m n 0)) group).
Proof.
  unfold playGroup. set (gs := spawn m whole group (now w)).
  destruct (run_writes (pending gs) gs (written w) ltac:(lia)) as (new & E & C).
  destruct (run (pending gs) gs (written w)) as [gs' log]. simpl in *.
  exists new. split; [exact E|]. intros P. rewrite C. apply countPending_spawn.
Qed.

Lemma written_echoGroup g w : written (echoGroup g w) = written w.
Proof. unfold echoGroup. destruct g as [|n [|n' g]]; reflexivity. Qed.

Lemma groups_writes (m : Midi.t) (whole : Z) (echo : bool) (seq : list (list Note)) (w : World) :
  exists new,
    written (fold_left
               (fun w eachGroup =>
                  playGroup m whole eachGroup (if echo then echoGroup eachGroup w else w))
               seq w)
    = written w ++ new /\
    forall P, countLog P new
              = list_sum (map (fun n => countCode P (PlayNote m n 0)) (concat seq)).
Proof.
  revert w. induction seq as [|g rest IH]; intros w; simpl.
  - exists []. now rewrite app_nil_r.
  - destruct (IH (playGroup m whole g (if echo then echoGroup g w else w)))
      as (new2 & E2 & C2).
    destruct (playGroup_writes m whole g (if echo then echoGroup g w else w))
      as (new1 & E1 & C1).
    exists (new1 ++ new2). split.
    + rewrite E2, E1. destruct echo; rewrite ?written_echoGroup; now rewrite app_assoc.
    + intros P. rewrite countLog_app, C1, C2, map_app, list_sum_app. reflexivity.
Qed.

Lemma Play_writes m seq echo w :
  enabled m = true ->
  exists new,
    written (Play m seq echo w) = written w ++ new /\
    forall P, countLog P new
              = list_sum (map (fun n => countCode P (PlayNote m n 0)) (concat seq)).
Proof.
  intros He. unfold Play. rewrite He. simpl.
  destruct echo; simpl.
  - apply (groups_writes m _ true).
  - apply (groups_writes m _ false).
Qed.

Lemma filter_none {A} (f : A -> bool) l :
  length (List.filter f l) = O -> Forall (fun x => f x = false) l.
Proof.
  induction l as [|x l IH]; simpl; intros H; [constructor|].
  destruct (f x) eqn:E; [discriminate|]. constructor; auto.
Qed.

Lemma sum_sounding (f : Note -> nat) (c : nat) (notes : list Note) :
  (forall n, IsRest n = false -> f n = c) ->
  (forall n, IsRest n = true -> f n = O) ->
  list_sum (map f notes)
  = (c * length (List.filter (fun n => negb (IsRest n)) notes))%nat.
Proof.
  intros H1 H0. induction notes as [|n rest IH]; simpl; [lia|].
  destruct (IsRest n) eqn:E; simpl; rewrite IH.
  - rewrite (H0 n E). lia.
  - rewrite (H1 n E). lia.
Qed.


(** X1. [Play] on an enabled device adds to the stream's log exactly two
    writes for every note that is not a rest and none for a rest, and every
    one of them is a Note-On (0x90) or a Note-Off (0x80) at velocity 100 on
    the device's own stream: it never writes anything else, and never on
    another stream. *)
Theorem Play_writes_only_notes m seq echo w :
  enabled m = true ->
  exists new,
    written (Play m seq echo w) = written w ++ new /\
    length new = (2 * length (sounding seq))%nat /\
    Forall (noteMessage m) new.
Proof.
  intros He. destruct (Play_writes m seq echo w He) as (new & E & C).
  exists new. split; [exact E|]. split.
  - transitivity (countLog (fun _ _ _ _ => true) new).
    + unfold countLog, carries. clear. induction new; simpl; congruence.
    + rewrite C. apply sum_sounding; intros n Hn; rewrite countCode_PlayNote, Hn; reflexivity.
  - pose (bad := fun st s (d1 : Z) d2 =>
                   negb ((st =? stream m) && (d2 =? 100)
                         && ((s =? noteOn) || (s =? noteOff)))).
    assert (H0 : countLog bad new = O).
    { rewrite C. rewrite (sum_sounding _ O); [lia| |].
      - intros n Hn. rewrite countCode_PlayNote, Hn. unfold bad.
        rewrite !Z.eqb_refl. reflexivity.
      - intros n Hn. rewrite countCode_PlayNote, Hn. reflexivity. }
    apply filter_none in H0. eapply Forall_impl; [exact H0|].
    intros wr Hwr. simpl in Hwr. unfold carries, bad in Hwr.
    apply negb_false_iff in Hwr.
    apply andb_true_iff in Hwr as [Hwr H3]. apply andb_true_iff in Hwr as [H1 H2].
    apply orb_true_iff in H3. unfold noteMessage. rewrite !Z.eqb_eq in *. tauto.
Qed.

Lemma Play_writes_only_notes_witness :
  exists new,
    written (Play at120 example8 false (mkWorld 0 [] [])) = [] ++ new /\
    length new = 8%nat /\
    Forall (noteMessage at120) new.
Proof. exact (Play_writes_only_notes at120 example8 false (mkWorld 0 [] []) eq_refl). Defined.



(** X3. A sequence of rests only is silent but not instantaneous: [Play]
    writes nothing at all, and still returns only after the rests' durations
    have passed. *)
Theorem Play_rests_silent m seq echo w :
  enabled m = true ->
  Forall (Forall (fun n => IsRest n = true)) seq ->
  written (Play m seq echo w) = written w /\
  now (Play m seq echo w) = now w + sequenceDuration (wholeNoteDuration (bpm m)) seq.
Proof.
  intros He Hr. split; [|now apply Play_now].
  destruct (Play_writes m seq echo w He) as (new & E & C).
  assert (Hn : length new = O).
  { transitivity (countLog (fun _ _ _ _ => true) new).
    - unfold countLog, carries. clear. induction new; simpl; congruence.
    - rewrite C. clear - Hr. induction Hr as [|g rest Hg _ IH]; simpl; [reflexivity|].
      rewrite map_app, list_sum_app, IH. clear IH.
      induction Hg as [|n g' Hn _ IH]; simpl; [reflexivity|].
      rewrite countCode_PlayNote, Hn. simpl in *. lia. }
  destruct new; [now rewrite app_nil_r in E | discriminate].
Qed.

Lemma Play_rests_silent_witness :
  written (Play at120 [[mkNote 0 true (float32_dyadic 1 (-1)) 0 PedalNone]] false
                (mkWorld 0 [] [])) = [] /\
  now (Play at120 [[mkNote 0 true (float32_dyadic 1 (-1)) 0 PedalNone]] false
            (mkWorld 0 [] []))
  = 0 + sequenceDuration (wholeNoteDuration (bpm at120))
                         [[mkNote 0 true (float32_dyadic 1 (-1)) 0 PedalNone]].
Proof.
  apply (Play_rests_silent at120 [[mkNote 0 true (float32_dyadic 1 (-1)) 0 PedalNone]]
                           false (mkWorld 0 [] [])).
  - reflexivity.
  - repeat constructor.
Defined.

(** *** The echo *)

Lemma playGroup_console m whole g w : console (playGroup m whole g w) = console w.
Proof.
  unfold playGroup. destruct (run _ _ _). reflexivity.
Qed.

Lemma playGroup_heard m whole g w1 w2 :
  now w1 = now w2 -> written w1 = written w2 ->
  now (playGroup m whole g w1) = now (playGroup m whole g w2) /\
  written (playGroup m whole g w1) = written (playGroup m whole g w2).
Proof.
  intros Hn Hw. unfold playGroup. rewrite Hn, Hw. destruct (run _ _ _). simpl. auto.
Qed.

Lemma console_echoGroup g w : console (echoGroup g w) = console w ++ [echoed g].
Proof. unfold echoGroup, echoed. destruct g as [|n [|n' g]]; reflexivity. Qed.

Lemma groups_echo (m : Midi.t) (whole : Z) (seq : list (list Note)) (w1 w2 : World) :
  now w1 = now w2 -> written w1 = written w2 ->
  let loud := fold_left (fun w eachGroup => playGroup m whole eachGroup (echoGroup eachGroup w))
                        seq w1 in
  let quiet := fold_left (fun w eachGroup => playGroup m whole eachGroup w) seq w2 in
  now loud = now quiet /\ written loud = written quiet /\
  console loud = console w1 ++ map echoed seq /\ console quiet = console w2.
Proof.
  revert w1 w2. induction seq as [|g rest IH]; intros w1 w2 Hn Hw; simpl.
  - rewrite app_nil_r. auto.
  - destruct (playGroup_heard m whole g (echoGroup g w1) w2) as [Hn' Hw'].
    { now rewrite echoGroup_now. }
    { now rewrite written_echoGroup. }
    destruct (IH _ _ Hn' Hw') as (H1 & H2 & H3 & H4). simpl in *.
    rewrite H1, H2, H3, H4, !playGroup_console, console_echoGroup, <- app_assoc.
    auto.
Qed.

(** X4. The echo is a side channel.  With or without it [Play] returns at the
    same instant and makes the same writes; without it the console is left
    alone; with it an enabled device prints one item per group, the note
    itself for a group of one and the group otherwise, and a newline at the
    end, also for an empty sequence. *)
Theorem Play_echo m seq w :
  now (Play m seq true w) = now (Play m seq false w) /\
  written (Play m seq true w) = written (Play m seq false w) /\
  console (Play m seq false w) = console w /\
  console (Play m seq true w)
  = if enabled m then console w ++ map echoed seq ++ [PrintNewline] else console w.
Proof.
  unfold Play. destruct (enabled m); simpl; [|auto].
  destruct (groups_echo m (wholeNoteDuration (bpm m)) seq w w eq_refl eq_refl)
    as (H1 & H2 & H3 & H4).
  simpl in *. rewrite H1, H2, H3, H4, app_assoc. auto.
Qed.

(** *** The order of the writes *)

Lemma StronglySorted_snoc {A} (R : A -> A -> Prop) l x :
  StronglySorted R l -> Forall (fun a => R a x) l -> StronglySorted R (l ++ [x]).
Proof.
  induction 1 as [|a l Hs IH Ha]; intros Hx; simpl.
  - repeat constructor.
  - inversion Hx; subst. constructor; [auto|].
    apply Forall_app. split; [exact Ha | repeat constructor; assumption].
Qed.

Lemma perform_clock g log : g_clock g <= g_clock (fst (perform g log)).
Proof.
  unfold perform. destruct g as [c code]; simpl.
  destruct code as [|[st status d1 d2|d] k]; simpl; lia.
Qed.

Lemma perform_log g log :
  snd (perform g log) = log \/
  exists st status d1 d2,
    snd (perform g log) = log ++ [mkWrite (g_clock g) st status d1 d2].
Proof.
  unfold perform. destruct g as [c code]; simpl.
  destruct code as [|[st status d1 d2|d] k]; simpl; eauto 6.
Qed.

(** Whichever goroutine the scheduler lets move, the log stays in time
    order. *)
Lemma moves_chronological s s' :
  moves s s' ->
  StronglySorted (fun a b => w_at a <= w_at b) (snd s) -> timely (fst s) (snd s) ->
  StronglySorted (fun a b => w_at a <= w_at b) (snd s') /\ timely (fst s') (snd s').
Proof.
  intros [gs log i g Hl Hr Hmin]. simpl. intros Hs Ht.
  assert (Hold : Forall (fun wr => w_at wr <= g_clock g) log).
  { eapply Forall_impl; [exact Ht|]. intros wr Hwr. simpl in Hwr.
    exact (Forall_lookup_1 _ _ _ _ Hwr Hl Hr). }
  assert (Hkeep : Forall (fun wr => Forall (fun g0 => runnable g0 = true -> w_at wr <= g_clock g0)
                                     (<[i := fst (perform g log)]> gs)) log).
  { unfold timely in Ht. rewrite List.Forall_forall in Ht, Hold.
    apply List.Forall_forall. intros wr Hin.
    apply Forall_insert; [exact (Ht wr Hin)|].
    intros _. specialize (Hold wr Hin). pose proof (perform_clock g log). lia. }
  destruct (perform_log g log) as [E | (st & status & d1 & d2 & E)]; rewrite E.
  - split; assumption.
  - split; [apply StronglySorted_snoc; assumption|].
    unfold timely. apply Forall_app. split; [exact Hkeep|].
    constructor; [|constructor]. simpl.
    apply Forall_insert; [exact Hmin|].
    intros _. apply perform_clock.
Qed.

Lemma rtc_moves_chronological s s' :
  rtc moves s s' ->
  StronglySorted (fun a b => w_at a <= w_at b) (snd s) -> timely (fst s) (snd s) ->
  StronglySorted (fun a b => w_at a <= w_at b) (snd s').
Proof.
  induction 1 as [|s s1 s2 H1 _ IH]; intros Hs Ht; [exact Hs|].
  destruct (moves_chronological _ _ H1 Hs Ht). auto.
Qed.

Lemma playGroup_chronological m whole group w :
  chronological (now w) (written w) ->
  chronological (now (playGroup m whole group w)) (written (playGroup m whole group w)).
Proof.
  intros [Hs Hb]. rewrite playGroup_now. unfold playGroup.
  set (gs := spawn m whole group (now w)).
  pose proof (run_moves (pending gs) gs (written w)) as Hrtc.
  destruct (run_between (now w) (now w + groupDuration whole group) (pending gs) gs
                        (written w) (spawn_between m whole group (now w)))
    as (new & E & Hnew).
  destruct (run (pending gs) gs (written w)) as [gs' log]. simpl in *.
  pose proof (groupDuration_nonneg whole group) as Hd.
  split.
  - apply (rtc_moves_chronological _ _ Hrtc Hs). simpl. unfold timely.
    eapply Forall_impl; [exact Hb|]. intros wr Hwr. simpl in Hwr.
    unfold gs, spawn. apply Forall_map. apply List.Forall_forall. intros n _ _. simpl. exact Hwr.
  - rewrite E. apply Forall_app. split.
    + eapply Forall_impl; [exact Hb|]. intros wr Hwr. simpl in Hwr. lia.
    + eapply Forall_impl; [exact Hnew|]. intros wr Hwr. simpl in Hwr. lia.
Qed.

(** X5. The stream receives its writes in time order.  If the log is in time
    order and holds nothing later than the instant [Play] is called at, then
    after [Play] it is again in time order and holds nothing later than the
    instant [Play] returns at: no write of a group comes before a write of an
    earlier group, and none is stamped after the return. *)
Theorem Play_chronological m seq echo w :
  chronological (now w) (written w) ->
  chronological (now (Play m seq echo w)) (written (Play m seq echo w)).
Proof.
  intros H. unfold Play. destruct (enabled m); simpl; [|exact H].
  assert (G : forall seq w,
             chronological (now w) (written w) ->
             let w' := fold_left
                         (fun w eachGroup =>
                            playGroup m (wholeNoteDuration (bpm m)) eachGroup
                                      (if echo then echoGroup eachGroup w else w))
                         seq w in
             chronological (now w') (written w')).
  { clear. induction seq as [|g rest IH]; intros w H; simpl; [exact H|].
    apply IH. apply playGroup_chronological.
    destruct echo; rewrite ?echoGroup_now, ?written_echoGroup; exact H. }
  specialize (G seq w H). simpl in G. destruct echo; exact G.
Qed.

Lemma Play_chronological_witness :
  chronological (now (Play at120 example8 false (mkWorld 0 [] [])))
                (written (Play at120 example8 false (mkWorld 0 [] []))).
Proof.
  apply (Play_chronological at120 example8 false (mkWorld 0 [] [])).
  split; constructor.
Defined.

(** X27. [Open] and then [Play].  [Open] fails exactly when the driver names
    no default output device or cannot open its stream.  The device it
    returns otherwise is enabled, writes to the stream that was opened, and
    plays at 120 beats per minute: a whole note lasts two seconds, and
    [Play] returns after the durations of the groups at that tempo. *)
Theorem Open_then_Play (defaultOutput : Z) (out : option Z) :
  match Open defaultOutput out with
  | None => defaultOutput = -1 \/ out = None
  | Some m =>
      defaultOutput <> -1 /\ out = Some (stream m) /\ enabled m = true /\
      wholeNoteDuration (bpm m) = 2000 * Millisecond /\
      forall seq echo w,
        now (Play m seq echo w) = now w + sequenceDuration (2000 * Millisecond) seq
  end.
Proof.
  unfold Open. destruct (Z.eqb_spec defaultOutput (-1)) as [E|E]; [auto|].
  destruct out as [s|]; [|auto].
  assert (Hw : wholeNoteDuration (float64_of_Z 120) = 2000 * Millisecond)
    by (vm_compute; reflexivity).
  cbn [stream enabled bpm]. repeat split; auto.
  intros seq echo w. rewrite Play_now by reflexivity. cbn [bpm]. now rewrite Hw.
Qed.

End PlayFacts.

(** ** Pedal events: what is submitted, and what an event writes *)

Module PedalEventFacts.
Import Midi Pedal.

(** X6. Only a group of exactly one note can be a pedal change.  An empty
    group and a group of several notes are reported as not handled and
    nothing is submitted to the timeline, also when the notes carry pedal
    markers. *)
Theorem handledPedalChange_single_only m ch timeline moment group :
  length group <> 1%nat ->
  handledPedalChange m ch timeline moment group = (timeline, false).
Proof.
  intros H. unfold handledPedalChange.
  destruct group as [|n [|n' rest]]; simpl; [reflexivity | contradiction | reflexivity].
Qed.

Lemma handledPedalChange_single_only_witness :
  handledPedalChange at120 1 [(5, pedalUp 1 7)] 10 [pedalNote PedalUp; pedalNote PedalDown]
  = ([(5, pedalUp 1 7)], false).
Proof.
  apply (handledPedalChange_single_only at120 1 [(5, pedalUp 1 7)] 10
           [pedalNote PedalUp; pedalNote PedalDown]).
  simpl. lia.
Defined.

(** X7. Whatever the group, [handledPedalChange] only adds to the timeline:
    what was submitted before stays, in its order, and at most two events
    are submitted after it, every one of them for the given moment, on the
    given channel and on the device's own stream.  A group is reported as
    handled only if something was submitted. *)
Theorem handledPedalChange_submits m ch timeline moment group :
  exists added,
    fst (handledPedalChange m ch timeline moment group) = timeline ++ added /\
    (length added <= 2)%nat /\
    Forall (fun p => fst p = moment /\ channel (snd p) = ch /\ out (snd p) = stream m) added /\
    (snd (handledPedalChange m ch timeline moment group) = true -> added <> []).
Proof.
  unfold handledPedalChange, Schedule.
  destruct group as [|n [|n' rest]]; simpl.
  - exists []. rewrite app_nil_r. repeat split; auto; discriminate.
  - destruct (IsPedalUp n); [|destruct (IsPedalUpDown n); [|destruct (IsPedalDown n)]]; simpl.
    + eexists; split; [reflexivity|].
      repeat split; simpl; auto; try discriminate; repeat constructor.
    + eexists; split; [rewrite <- app_assoc; reflexivity|].
      repeat split; simpl; auto; try discriminate; repeat constructor.
    + eexists; split; [reflexivity|].
      repeat split; simpl; auto; try discriminate; repeat constructor.
    + exists []. rewrite app_nil_r. repeat split; auto; discriminate.
  - exists []. rewrite app_nil_r. repeat split; auto; discriminate.
Qed.




End PedalEventFacts.

(** ** The listener over a trace of events, and its start and stop *)

Module ListenerFacts.
Import Listen.

(** X9. Striking and releasing a key that was not held brings the map of
    held notes back to what it was; only the counter remembers the strike,
    and the struck note stays published in the variable store. *)
Theorem NoteOn_NoteOff_round_trip (l : Listen.t) (n : Note) :
  notesOn l !! MIDI n = None ->
  notesOn (NoteOff (fst (NoteOn l n)) n) = notesOn l /\
  noteChangeCount (NoteOff (fst (NoteOn l n)) n) = wrap64 (noteChangeCount l + 1) /\
  variables (NoteOff (fst (NoteOn l n)) n) !! variableName l = Some n.
Proof.
  intros H. simpl. split; [now apply delete_insert_id|].
  split; [reflexivity | apply lookup_insert_eq].
Qed.

Lemma NoteOn_NoteOff_round_trip_witness :
  notesOn (NoteOff (fst (NoteOn (NewListen 1 "note" ∅) middleC)) middleC) = ∅.
Proof.
  exact (proj1 (NoteOn_NoteOff_round_trip (NewListen 1 "note" ∅) middleC eq_refl)).
Defined.

Lemma handle_other_pitch l e k : pitch e <> k -> notesOn (handle l e) !! k = notesOn l !! k.
Proof.
  destruct e as [n|n]; simpl; intros H.
  - now apply lookup_insert_ne.
  - now apply lookup_delete_ne.
Qed.

Lemma trace_other_pitches es l k :
  Forall (fun e => pitch e <> k) es ->
  notesOn (fold_left handle es l) !! k = notesOn l !! k.
Proof.
  intros H. revert l. induction H as [|e es He _ IH]; intros l; simpl; [reflexivity|].
  rewrite IH. now apply handle_other_pitch.
Qed.

(** X10. The guard of a strike is not disturbed by other keys: after any
    series of note-on and note-off events for other pitches, however long,
    it still holds. *)
Theorem NoteOn_guard_other_pitches (l : Listen.t) (n : Note) (es : list event) :
  Forall (fun e => pitch e <> MIDI n) es ->
  snd (NoteOn l n) (fold_left handle es (fst (NoteOn l n))) = true.
Proof.
  intros H. cbn [snd NoteOn]. unfold isNoteOnCount.
  rewrite (trace_other_pitches es _ _ H). simpl.
  rewrite lookup_insert_eq. apply Z.eqb_refl.
Qed.

Lemma NoteOn_guard_other_pitches_witness :
  snd (NoteOn (NewListen 1 "note" ∅) middleC)
      (fold_left handle [On (mkNote 62 false (float32_of_Z 1) 72 PedalNone);
                         Off (mkNote 62 false (float32_of_Z 1) 72 PedalNone);
                         Off (mkNote 64 false (float32_of_Z 1) 72 PedalNone)]
                 (fst (NoteOn (NewListen 1 "note" ∅) middleC))) = true.
Proof.
  apply (NoteOn_guard_other_pitches (NewListen 1 "note" ∅) middleC).
  repeat constructor; simpl; lia.
Defined.

Lemma handle_variableName l e : variableName (handle l e) = variableName l.
Proof. destruct e; reflexivity. Qed.

Lemma trace_variableName es l : variableName (fold_left handle es l) = variableName l.
Proof.
  revert l. induction es as [|e es IH]; intros l; simpl; [reflexivity|].
  now rewrite IH, handle_variableName.
Qed.

(** X11. The variable of a listener always holds the note struck last: after
    any trace it is the note of the last note-on event, releases do not
    clear it, and a trace without a note-on leaves it as it was.  No other
    variable of the store is ever touched. *)
Theorem trace_variables (es : list event) (l : Listen.t) :
  variables (fold_left handle es l) !! variableName l
  = match lastStruck es with
    | Some n => Some n
    | None => variables l !! variableName l
    end /\
  forall name, name <> variableName l ->
               variables (fold_left handle es l) !! name = variables l !! name.
Proof.
  induction es as [|e es IH] using rev_ind; [simpl; auto|].
  unfold lastStruck in *. rewrite !fold_left_app. simpl.
  destruct IH as [IH1 IH2]. destruct e as [n|n]; simpl.
  - rewrite trace_variableName. split; [apply lookup_insert_eq|].
    intros name Hn. rewrite lookup_insert_ne by congruence. now apply IH2.
  - split; assumption.
Qed.

Lemma handle_ranked l e :
  (forall n, e = On n -> 0 <= noteChangeCount l < max_int64) ->
  ranked l -> ranked (handle l e).
Proof.
  intros Hc [Hr Hi]. destruct e as [n|n]; unfold ranked; simpl.
  - specialize (Hc n eq_refl). rewrite wrap64_id by (unfold min_int64, max_int64 in *; lia). split.
    + intros k c. destruct (decide (k = MIDI n)) as [->|Hk].
      * rewrite lookup_insert_eq. intros [= <-]. lia.
      * rewrite lookup_insert_ne by congruence. intros H. specialize (Hr _ _ H). lia.
    + intros k1 k2 c.
      destruct (decide (k1 = MIDI n)) as [->|H1], (decide (k2 = MIDI n)) as [->|H2];
        rewrite ?lookup_insert_eq, ?lookup_insert_ne by congruence.
      * reflexivity.
      * intros [= <-] H. specialize (Hr _ _ H). lia.
      * intros H [= <-]. specialize (Hr _ _ H). lia.
      * apply Hi.
  - split.
    + intros k c H. apply lookup_delete_Some in H as [_ H]. eauto.
    + intros k1 k2 c H1 H2.
      apply lookup_delete_Some in H1 as [_ H1]. apply lookup_delete_Some in H2 as [_ H2].
      eauto.
Qed.

Lemma trace_ranked_from es l :
  0 <= noteChangeCount l -> noteChangeCount l + strikes es <= max_int64 ->
  ranked l -> ranked (fold_left handle es l).
Proof.
  revert l. induction es as [|e es IH]; intros l H0 Hs Hr; simpl in *; [exact Hr|].
  pose proof (ListenFacts.strikes_bounds es) as Hb.
  assert (Hr' : ranked (handle l e)).
  { apply handle_ranked; [|exact Hr]. intros n ->. lia. }
  destruct e as [n|n]; apply IH; simpl; try exact Hr'; try lia;
    rewrite wrap64_id by (unfold min_int64, max_int64 in *; lia); lia.
Qed.

(** X12. The held notes are ranked by strike.  As long as the counter has
    not run through the 64-bit range, after any trace from a new listener
    every count recorded for a held note lies between 1 and the counter, and
    no two held pitches carry the same count: a guard's count identifies one
    strike of one key. *)
Theorem trace_ranked (es : list event) (device : Z) (name : string) (store : gmap string Note) :
  Z.of_nat (length es) <= max_int64 ->
  ranked (fold_left handle es (NewListen device name store)).
Proof.
  intros H. pose proof (ListenFacts.strikes_bounds es).
  apply trace_ranked_from; simpl; try lia.
  split; simpl; [intros k c E | intros k1 k2 c E];
    rewrite lookup_empty in E; discriminate.
Qed.

Lemma trace_ranked_witness :
  ranked (fold_left handle [On middleC; Off middleC; On middleC] (NewListen 1 "note" ∅)).
Proof.
  apply (trace_ranked [On middleC; Off middleC; On middleC] 1 "note" ∅).
  unfold max_int64. simpl. lia.
Defined.

(** *** Starting and stopping *)





End ListenerFacts.

(** ** The output cache under any interleaving *)

Module CacheFacts.
Import DeviceRegistry.

Section Registry.
Variable StreamRegistry : Type.
Variable output : StreamRegistry -> Z -> option Z * StreamRegistry.

Local Abbreviation Output := (Output StreamRegistry output).
Local Abbreviation Output_step := (Output_step StreamRegistry output).
Local Abbreviation interleave := (interleave StreamRegistry output).
Local Abbreviation registry := (DeviceRegistry.t StreamRegistry).

Lemma alter_Start_last (h : list OutputDevice) (x : OutputDevice) :
  alter Start (length h) (h ++ [x]) = h ++ [Start x].
Proof.
  rewrite <- (Nat.add_0_r (length h)) at 1. rewrite alter_app_r. reflexivity.
Qed.

Lemma Output_step_sound (c : Call) (d : registry) :
  cacheSound _ d ->
  cacheSound _ (snd (Output_step c d)) /\
  exists more, heap _ (snd (Output_step c d)) = heap _ d ++ more.
Proof.
  intros Hd. unfold DeviceRegistry.Output_step.
  destruct (call_pc c) as [| |r]; simpl.
  - destruct (out _ d !! call_id c); simpl;
      (split; [exact Hd | exists []; now rewrite app_nil_r]).
  - destruct (output (streamRegistry _ d) (call_id c)) as [[midiOut|] sr]; simpl.
    + rewrite alter_Start_last. split; [|eauto].
      intros id p. simpl. destruct (decide (id = call_id c)) as [->|Hne].
      * rewrite lookup_insert_eq. intros [= <-].
        eexists. split; [apply list_lookup_middle; reflexivity|]. simpl. auto.
      * rewrite lookup_insert_ne by congruence. intros H.
        destruct (Hd id p H) as (od & Hl & Hi & Hs).
        exists od. split; [now apply lookup_app_l_Some | auto].
    + split; [exact Hd | exists []; now rewrite app_nil_r].
  - split; [exact Hd | exists []; now rewrite app_nil_r].
Qed.

(** X14. Whatever the order in which concurrent calls of [Output] run their
    critical sections, the cache stays sound: every pointer it holds leads
    to a device that was made for the id it is cached under and that has
    been started.  Devices already on the heap are neither removed nor
    changed; at most new ones are added. *)
Theorem interleave_cacheSound (schedule : list nat) (calls : list Call) (d : registry) :
  cacheSound _ d ->
  cacheSound _ (snd (interleave schedule calls d)) /\
  exists more, heap _ (snd (interleave schedule calls d)) = heap _ d ++ more.
Proof.
  revert calls d. induction schedule as [|i rest IH]; intros calls d Hd; simpl.
  - split; [exact Hd | exists []; now rewrite app_nil_r].
  - destruct (calls !! i) as [c|]; [|now apply IH].
    destruct (Output_step_sound c d Hd) as [Hs (more1 & E1)].
    destruct (DeviceRegistry.Output_step _ output c d) as [c' d']. simpl in *.
    destruct (IH (<[i := c']> calls) d' Hs) as [Hs' (more2 & E2)].
    split; [exact Hs'|]. exists (more1 ++ more2). now rewrite E2, E1, app_assoc.
Qed.

(** X15. A call of [Output] that fails has changed nothing but the stream
    registry: the id was not cached, it still is not, and the devices on the
    heap and the default output id are as before.  Nothing remembers the
    failure. *)
Theorem Output_failure (d : registry) (id : Z) :
  fst (Output d id) = None ->
  out _ d !! id = None /\
  out _ (snd (Output d id)) = out _ d /\
  heap _ (snd (Output d id)) = heap _ d /\
  defaultOutputID _ (snd (Output d id)) = defaultOutputID _ d.
Proof.
  unfold DeviceRegistry.Output, DeviceRegistry.Output_step. simpl.
  destruct (out _ d !! id) as [p|] eqn:Hc; simpl; [discriminate|].
  destruct (output (streamRegistry _ d) id) as [[midiOut|] sr]; simpl; [discriminate|].
  auto.
Qed.

End Registry.

Lemma interleave_cacheSound_witness :
  cacheSound _ (snd (DeviceRegistry.interleave _ cachingOutput [0; 1; 0; 1]%nat
                       [mkCall 3 AtRLock; mkCall 3 AtRLock] emptyRegistry)) /\
  exists more,
    heap _ (snd (DeviceRegistry.interleave _ cachingOutput [0; 1; 0; 1]%nat
                   [mkCall 3 AtRLock; mkCall 3 AtRLock] emptyRegistry))
    = [] ++ more.
Proof.
  apply (interleave_cacheSound _ cachingOutput [0; 1; 0; 1]%nat
           [mkCall 3 AtRLock; mkCall 3 AtRLock] emptyRegistry).
  intros id p H. simpl in H. rewrite lookup_empty in H. discriminate.
Defined.

Lemma Output_failure_witness :
  (∅ : gmap Z nat) !! 3 = None /\
  out _ (snd (DeviceRegistry.Output _ noOutput (mk _ ∅ [] 3 tt) 3)) = ∅ /\
  heap _ (snd (DeviceRegistry.Output _ noOutput (mk _ ∅ [] 3 tt) 3)) = [] /\
  defaultOutputID _ (snd (DeviceRegistry.Output _ noOutput (mk _ ∅ [] 3 tt) 3)) = 3.
Proof. exact (Output_failure _ noOutput (mk _ ∅ [] 3 tt) 3 eq_refl). Defined.

End CacheFacts.

(** ** Inputs and the command line of the registry *)

Module DeviceCommandsFacts.
Import DeviceCommands.

Section Commands.
Variable StreamRegistry : Type.
Variable output : StreamRegistry -> Z -> option Z * StreamRegistry.
Variable input : StreamRegistry -> Z -> option Z * StreamRegistry.
Variable Atoi : string -> option Z.
Variable printInfo : t StreamRegistry -> option (t StreamRegistry).

Local Abbreviation registry := (t StreamRegistry).
Local Abbreviation Input := (Input StreamRegistry input).
Local Abbreviation Output := (Output StreamRegistry output).
Local Abbreviation Command := (Command StreamRegistry output Atoi printInfo).
Local Abbreviation defaultOutput d := (DeviceRegistry.defaultOutputID _ (outputs _ d)).

(** X16. [Input] keeps to the inputs.  Whether it succeeds or not it leaves
    the output cache, the output devices and both default ids alone.  When it
    returns a device, the device is cached: asked again, it returns the same
    device and changes nothing.  When it fails, the input cache and the
    input devices are as before. *)
Theorem Input_caches (d : registry) (id : Z) :
  DeviceRegistry.out _ (outputs _ (snd (Input d id))) = DeviceRegistry.out _ (outputs _ d) /\
  DeviceRegistry.heap _ (outputs _ (snd (Input d id))) = DeviceRegistry.heap _ (outputs _ d) /\
  IO _ (snd (Input d id)) = IO _ d /\
  match fst (Input d id) with
  | Some p => Input (snd (Input d id)) id = (Some p, snd (Input d id))
  | None => in_ _ (snd (Input d id)) = in_ _ d /\ inputs _ (snd (Input d id)) = inputs _ d
  end.
Proof.
  unfold DeviceCommands.Input.
  destruct (in_ _ d !! id) as [p|] eqn:Hc; simpl.
  - rewrite Hc. auto.
  - destruct (input (DeviceRegistry.streamRegistry _ (outputs _ d)) id) as [[midiIn|] sr];
      simpl; [|auto].
    rewrite lookup_insert_eq. auto.
Qed.

Lemma Command_cases (command : string) :
  command = "echo"%string \/
  (String.eqb command "echo" = false /\
   (command = "in"%string \/
    (String.eqb command "in" = false /\
     (command = "out"%string \/ String.eqb command "out" = false)))).
Proof.
  destruct (String.eqb_spec command "echo"); [auto|].
  destruct (String.eqb_spec command "in"); [auto|].
  destruct (String.eqb_spec command "out"); auto 10.
Qed.

(** X17. A command other than [echo] cannot go wrong and does not reach the
    devices: it always answers with a message, and the caches, the devices
    and the streams are as before.  A default id changes only for [in] or
    [out] given exactly one argument that [strconv.Atoi] accepts, and then
    only the id that was named. *)
Theorem Command_keeps_devices (d : registry) (command : string) (rest : list string) :
  command <> "echo"%string ->
  exists msg d',
    Command d (command :: rest) = Some (Some msg, d') /\
    devices _ d' = devices _ d /\
    (IO _ d' = IO _ d \/
     exists a nr,
       rest = [a] /\ Atoi a = Some nr /\
       ((command = "in"%string /\ IO _ d' = (nr, snd (IO _ d))) \/
        (command = "out"%string /\ IO _ d' = (fst (IO _ d), nr)))).
Proof.
  intros Hne. unfold DeviceCommands.Command.
  destruct (Command_cases command) as [E|[-> [E|[-> [E| ->]]]]]; [contradiction| | |].
  - subst command. simpl.
    destruct rest as [|a [|b rest]]; simpl; eauto 8.
    destruct (Atoi a) as [nr|] eqn:Ha; eauto 12.
  - subst command. simpl.
    destruct rest as [|a [|b rest]]; simpl; eauto 8.
    destruct (Atoi a) as [nr|] eqn:Ha; eauto 12.
  - eauto 8.
Qed.

(** X18. The default ids are taken as given.  Whatever number the argument
    of [in] or [out] parses to, negative or naming no device, it becomes the
    default id that [IO] reports, and the other default id stays. *)
Theorem Command_sets_default (d : registry) (a : string) (nr : Z) :
  Atoi a = Some nr ->
  (exists d', Command d ["in"; a]%string
              = Some (Some (Infof_current_input_device_id nr), d') /\
              IO _ d' = (nr, snd (IO _ d))) /\
  (exists d', Command d ["out"; a]%string
              = Some (Some (Infof_current_output_device_id nr), d') /\
              IO _ d' = (fst (IO _ d), nr)).
Proof.
  intros Ha. unfold DeviceCommands.Command. simpl. rewrite Ha. split; eauto.
Qed.

Lemma toggleEcho_twice (l : list DeviceRegistry.OutputDevice) (i : nat) :
  alter toggleEcho i (alter toggleEcho i l) = l.
Proof.
  rewrite list_alter_alter_eq. apply list_alter_id.
  intros [id st ch e s]. unfold toggleEcho. simpl. now rewrite negb_involutive.
Qed.

(** X19. The echo command toggles, and toggling twice undoes it.  If
    [echo] answers at all, it answers with the new value of the echo flag of
    the default output device; a second [echo] answers with the opposite
    value and leaves the registry exactly as a plain [Output] of the default
    id would have left the original one. *)
Theorem Command_echo_twice (d d1 : registry) (m1 : option Message) :
  Command d ["echo"%string] = Some (m1, d1) ->
  exists e,
    m1 = Some (Infof_printing_notes_enabled e) /\
    defaultEcho _ d1 = Some e /\
    Command d1 ["echo"%string]
    = Some (Some (Infof_printing_notes_enabled (negb e)), snd (Output d (defaultOutput d))).
Proof.
  unfold DeviceCommands.Command. simpl.
  destruct (Output d (defaultOutput d)) as [[od|] d0] eqn:HO; [|discriminate].
  simpl.
  assert (Hcached : DeviceRegistry.out _ (outputs _ d0) !! defaultOutput d = Some od /\
                    defaultOutput d0 = defaultOutput d).
  { unfold DeviceCommands.Output in HO.
    destruct (DeviceRegistry.Output _ output (outputs _ d) (defaultOutput d))
      as [r o] eqn:Ho.
    injection HO as -> <-. simpl. split.
    - exact (RegistryFacts.Output_caches _ _ _ _ _ _ Ho).
    - revert Ho. unfold DeviceRegistry.Output, DeviceRegistry.Output_step. simpl.
      destruct (DeviceRegistry.out _ (outputs _ d) !! _); simpl.
      + intros [= _ <-]. reflexivity.
      + destruct (output _ _) as [[s|] sr]; simpl; intros [= _ <-]; reflexivity. }
  destruct Hcached as [Hc Hdef].
  rewrite list_lookup_alter_eq.
  destruct (DeviceRegistry.heap _ (outputs _ d0) !! od) as [dev|] eqn:Hdev; simpl;
    [|discriminate].
  intros [= <- <-]. exists (negb (DeviceRegistry.od_echo dev)).
  split; [reflexivity|]. split.
  - unfold defaultEcho. simpl. rewrite Hdef, Hc, list_lookup_alter_eq, Hdev. reflexivity.
  - unfold DeviceCommands.Output, DeviceRegistry.Output, DeviceRegistry.Output_step.
    simpl. rewrite Hdef, Hc. simpl.
    rewrite list_lookup_alter_eq, list_lookup_alter_eq, Hdev. simpl.
    rewrite toggleEcho_twice, negb_involutive.
    destruct d0 as [[o h df sr] i hs di]. simpl in *. subst df. reflexivity.
Qed.

(** X20. The echo command does not check that the default output device
    could be opened: when the device is not cached and the stream registry
    fails to open it, [Command] goes through the nil pointer that [Output]
    returned and panics, whatever follows [echo] on the command line. *)
Theorem Command_echo_unopenable (d : registry) (rest : list string) :
  DeviceRegistry.out _ (outputs _ d) !! defaultOutput d = None ->
  fst (output (DeviceRegistry.streamRegistry _ (outputs _ d)) (defaultOutput d)) = None ->
  Command d ("echo"%string :: rest) = None.
Proof.
  intros Hc Ho. unfold DeviceCommands.Command, DeviceCommands.Output,
    DeviceRegistry.Output, DeviceRegistry.Output_step. simpl. rewrite Hc. simpl.
  destruct (output _ _) as [[s|] sr]; simpl in *; [discriminate | reflexivity].
Qed.

End Commands.

Lemma Command_keeps_devices_witness :
  exists msg d',
    Command _ DeviceRegistry.cachingOutput sampleAtoi Some sampleRegistry
            ("out" :: ["-1"])%string = Some (Some msg, d') /\
    devices _ d' = devices _ sampleRegistry /\
    (IO _ d' = IO _ sampleRegistry \/
     exists a nr,
       ["-1"%string] = [a] /\ sampleAtoi a = Some nr /\
       (("out" = "in")%string /\ IO _ d' = (nr, snd (IO _ sampleRegistry)) \/
        ("out" = "out")%string /\ IO _ d' = (fst (IO _ sampleRegistry), nr))).
Proof.
  apply (Command_keeps_devices _ DeviceRegistry.cachingOutput sampleAtoi Some
           sampleRegistry "out" ["-1"%string]).
  discriminate.
Defined.

Lemma Command_sets_default_witness :
  (exists d', Command _ DeviceRegistry.cachingOutput sampleAtoi Some sampleRegistry
                      ["in"; "-1"]%string
              = Some (Some (Infof_current_input_device_id (-1)), d') /\
              IO _ d' = (-1, snd (IO _ sampleRegistry))) /\
  (exists d', Command _ DeviceRegistry.cachingOutput sampleAtoi Some sampleRegistry
                      ["out"; "-1"]%string
              = Some (Some (Infof_current_output_device_id (-1)), d') /\
              IO _ d' = (fst (IO _ sampleRegistry), -1)).
Proof.
  exact (Command_sets_default _ DeviceRegistry.cachingOutput sampleAtoi Some
           sampleRegistry "-1" (-1) eq_refl).
Defined.

Lemma Command_echo_twice_witness :
  exists e,
    Some (Infof_printing_notes_enabled true) = Some (Infof_printing_notes_enabled e) /\
    defaultEcho _ echoing = Some e /\
    Command _ DeviceRegistry.cachingOutput sampleAtoi Some echoing ["echo"%string]
    = Some (Some (Infof_printing_notes_enabled (negb e)),
            snd (Output _ DeviceRegistry.cachingOutput sampleRegistry 3)).
Proof.
  exact (Command_echo_twice _ DeviceRegistry.cachingOutput sampleAtoi Some
           sampleRegistry echoing (Some (Infof_printing_notes_enabled true)) eq_refl).
Defined.

Lemma Command_echo_unopenable_witness :
  Command _ DeviceRegistry.noOutput sampleAtoi Some deadRegistry ["echo"; "on"]%string = None.
Proof.
  exact (Command_echo_unopenable _ DeviceRegistry.noOutput sampleAtoi Some deadRegistry
           ["on"%string] eq_refl eq_refl).
Defined.

End DeviceCommandsFacts.

(** ** The language's functions *)

Module DslFacts.
Import Stdlib.Strings.Ascii.
Import Dsl.

#[local] Arguments String.eqb : simpl never.
#[local] Arguments String.leb : simpl never.

Lemma Split_nonempty s sep : exists piece pieces, Split s sep = piece :: pieces.
Proof.
  induction s as [|c rest IH]; simpl; [eauto|].
  destruct (Ascii.eqb c sep); [eauto|].
  destruct IH as (p & ps & ->). eauto.
Qed.

Lemma Split_single s sep piece : Split s sep = [piece] -> s = piece.
Proof.
  revert piece. induction s as [|c rest IH]; simpl; intros piece H.
  - now injection H.
  - destruct (Ascii.eqb c sep).
    + destruct (Split_nonempty rest sep) as (p & ps & E). rewrite E in H. discriminate.
    + destruct (Split_nonempty rest sep) as (p & ps & E). rewrite E in H.
      injection H as <- ->. f_equal. now apply IH.
Qed.

Lemma Split_without s sep : without sep s = true -> Split s sep = [s].
Proof.
  induction s as [|c rest IH]; simpl; [reflexivity|].
  intros H. apply andb_true_iff in H as [Hc Hr]. apply negb_true_iff in Hc.
  rewrite Hc, (IH Hr). reflexivity.
Qed.

Lemma Split_append a b sep :
  without sep a = true -> Split (a ++ String sep b) sep = a :: Split b sep.
Proof.
  induction a as [|c rest IH]; simpl.
  - intros _. now rewrite Ascii.eqb_refl.
  - intros H. apply andb_true_iff in H as [Hc Hr]. apply negb_true_iff in Hc.
    rewrite Hc, (IH Hr). reflexivity.
Qed.

(** X21. [IsCompatibleSyntax] goes out of range on exactly one input, the
    string [1]: a version without a dot has no minor part, and the minor
    part is only looked at when the major part is that of [Syntax].  Every
    other string gets an answer. *)
Theorem IsCompatibleSyntax_panics (s : string) :
  IsCompatibleSyntax s = None <-> s = "1"%string.
Proof.
  split; [|intros ->; reflexivity].
  unfold IsCompatibleSyntax. destruct (String.length s =? 0)%nat; [discriminate|].
  change (Split Syntax ".") with ["1"; "0"]%string. simpl.
  destruct (Split_nonempty s ".") as (p & ps & E). rewrite E. simpl.
  destruct (String.eqb_spec "1" p) as [<-|]; [|discriminate].
  destruct ps as [|minor ps]; simpl; [|discriminate].
  intros _. now apply Split_single in E.
Qed.

Lemma digit_not_dot a : isDigit a = true -> Ascii.eqb a "." = false.
Proof.
  destruct a as [[] [] [] [] [] [] [] []]; vm_compute; intros H; congruence.
Qed.

Lemma digits_without s : digits s = true -> without "." s = true.
Proof.
  induction s as [|a rest IH]; [discriminate|]. simpl.
  destruct rest as [|b rest'].
  - intros H. now rewrite (digit_not_dot a H).
  - intros H. apply andb_true_iff in H as [Ha Hr].
    rewrite (digit_not_dot a Ha). simpl. now apply IH.
Qed.

Lemma digit_compare a :
  isDigit a = true -> a = "0"%char \/ Ascii.compare a "0" = Gt.
Proof.
  destruct a as [[] [] [] [] [] [] [] []]; vm_compute; intros H; try congruence; auto.
Qed.

Lemma digits_leb s : digits s = true -> String.leb s "0" = String.eqb s "0".
Proof.
  destruct s as [|a rest]; [discriminate|]. intros H.
  assert (Ha : isDigit a = true).
  { simpl in H. destruct rest; [exact H|]. now apply andb_true_iff in H as [H _]. }
  unfold String.leb. simpl.
  destruct (digit_compare a Ha) as [->|Hgt].
  - change (Ascii.compare "0" "0") with Eq. change (Ascii.eqb "0" "0") with true.
    destruct rest; reflexivity.
  - rewrite Hgt. symmetry. apply String.eqb_neq. intros [= ->]. discriminate.
Qed.

Lemma length_append_dot a b : String.length (a ++ String "." b) <> O.
Proof. destruct a; simpl; discriminate. Qed.

(** X22. Versions are compared as text, not as numbers.  For a version whose
    major part has no dot and whose minor part is a string of decimal
    digits, with or without further parts, the answer is yes exactly when
    the major part is [1] and the minor part is the one character [0]: [1.0]
    and [1.0.7] are compatible, [1.00] and [1.1] are not. *)
Theorem IsCompatibleSyntax_numeric (major minor more : string) :
  without "." major = true ->
  digits minor = true ->
  more = ""%string \/ (exists r, more = String "." r) ->
  IsCompatibleSyntax (major ++ String "." (minor ++ more))
  = Some (String.eqb major "1" && String.eqb minor "0").
Proof.
  intros Hmajor Hminor Hmore. unfold IsCompatibleSyntax.
  destruct (String.length (major ++ String "." (minor ++ more)) =? 0)%nat eqn:E.
  { apply Nat.eqb_eq in E. now apply length_append_dot in E. }
  change (Split Syntax ".") with ["1"; "0"]%string.
  rewrite (Split_append _ _ _ Hmajor). simpl.
  assert (Hs : exists ps, Split (minor ++ more) "." = minor :: ps).
  { destruct Hmore as [->|(r & ->)].
    - exists []. replace (minor ++ "")%string with minor.
      + apply Split_without. now apply digits_without.
      + clear. induction minor as [|a r IH]; [reflexivity|].
        change (String a r = String a (r ++ ""))%string. now rewrite <- IH.
    - eexists. apply Split_append. now apply digits_without. }
  destruct Hs as (ps & ->). simpl.
  rewrite (String.eqb_sym "1" major).
  destruct (String.eqb major "1"); simpl; [|reflexivity].
  now rewrite digits_leb.
Qed.

Lemma IsCompatibleSyntax_numeric_witness :
  IsCompatibleSyntax "1.00.7" = Some false.
Proof.
  apply (IsCompatibleSyntax_numeric "1" "00" ".7"); [reflexivity | reflexivity |].
  right. eexists. reflexivity.
Defined.

Section Functions.
Variable Closure : Type.

Local Abbreviation Function := (Function Closure).
Local Abbreviation registerFunction := (registerFunction Closure).

Lemma no_alias (f : Function) :
  (0 <? String.length (Alias _ f))%nat = false <-> Alias _ f = ""%string.
Proof.
  destruct (Alias _ f) as [|a r]; split; intros H; try reflexivity; try discriminate.
Qed.

(** X23. [registerFunction] ends the program exactly when the key is taken,
    or the function has an alias and the alias is taken; a function without
    an alias is never refused on account of the key made of no
    characters. *)
Theorem registerFunction_fatal (m : gmap string Function) (k : string) (f : Function) :
  registerFunction m k f = None <->
  is_Some (m !! k) \/ (Alias _ f <> ""%string /\ is_Some (m !! Alias _ f)).
Proof.
  unfold Dsl.registerFunction.
  destruct (m !! k) as [dup|] eqn:Hk.
  - split; [eauto | reflexivity].
  - destruct (0 <? String.length (Alias _ f))%nat eqn:Ha.
    + assert (Hne : Alias _ f <> ""%string).
      { intros E. apply no_alias in E. congruence. }
      destruct (m !! Alias _ f) as [dup|] eqn:Hal.
      * split; [eauto | reflexivity].
      * split; [discriminate|]. intros [[x Hx]|[_ [x Hx]]]; discriminate.
    + apply no_alias in Ha. split; [discriminate|].
      intros [[x Hx]|[Hne _]]; [discriminate | contradiction].
Qed.

(** X24. What a successful [registerFunction] leaves in the map.  Nothing
    that was there is overwritten or removed.  The function is found under
    its key as it was given, and under its alias, if it has one, with the
    alias appended to its title in square brackets; when key and alias are
    the same string, the entry is the one with the alias in the title.  No
    other key is added. *)
Theorem registerFunction_registers (m m' : gmap string Function) (k : string) (f : Function) :
  registerFunction m k f = Some m' ->
  m ⊆ m' /\
  (Alias _ f <> k -> m' !! k = Some f) /\
  (Alias _ f <> ""%string -> m' !! Alias _ f = Some (withAliasInTitle _ f)) /\
  (forall j, j <> k -> j <> Alias _ f -> m' !! j = m !! j).
Proof.
  unfold Dsl.registerFunction.
  destruct (m !! k) as [dup|] eqn:Hk; [discriminate|].
  destruct (0 <? String.length (Alias _ f))%nat eqn:Ha.
  - destruct (m !! Alias _ f) as [dup|] eqn:Hal; [discriminate|].
    intros [= <-]. repeat split.
    + destruct (decide (Alias _ f = k)) as [E|E].
      * rewrite E, insert_insert_eq. now apply insert_subseteq.
      * etransitivity; [apply (insert_subseteq m k f Hk)|].
        apply insert_subseteq. rewrite lookup_insert_ne by congruence. exact Hal.
    + intros Hne. rewrite lookup_insert_ne by exact Hne. apply lookup_insert_eq.
    + intros _. apply lookup_insert_eq.
    + intros j Hj1 Hj2. rewrite !lookup_insert_ne by congruence. reflexivity.
  - apply no_alias in Ha. intros [= <-]. repeat split.
    + now apply insert_subseteq.
    + intros _. apply lookup_insert_eq.
    + intros Hne. contradiction.
    + intros j Hj1 _. now rewrite lookup_insert_ne by congruence.
Qed.

End Functions.

Lemma registerFunction_registers_witness :
  let join := mkFunction unit "Join operator" "" "joi" "J" "" "" false "" false false tt in
  (∅ : gmap string (Function unit)) ⊆ <["J"%string := withAliasInTitle _ join]> (<["join"%string := join]> ∅) /\
  (Alias _ join <> "join"%string ->
   (<["J"%string := withAliasInTitle _ join]> (<["join"%string := join]> ∅) : gmap string (Function unit))
     !! "join"%string = Some join) /\
  (Alias _ join <> ""%string ->
   (<["J"%string := withAliasInTitle _ join]> (<["join"%string := join]> ∅) : gmap string (Function unit))
     !! Alias _ join = Some (withAliasInTitle _ join)) /\
  (forall j, j <> "join"%string -> j <> Alias _ join ->
             (<["J"%string := withAliasInTitle _ join]> (<["join"%string := join]> ∅)
              : gmap string (Function unit)) !! j = (∅ : gmap string (Function unit)) !! j).
Proof.
  exact (registerFunction_registers unit ∅ _ "join"
           (mkFunction unit "Join operator" "" "joi" "J" "" "" false "" false false tt)
           eq_refl).
Defined.

Lemma length_append (a b : string) :
  String.length (a ++ b) = (String.length a + String.length b)%nat.
Proof.
  induction a as [|c a IH]; [reflexivity|].
  change (S (String.length (a ++ b)) = S (String.length a + String.length b)).
  now rewrite IH.
Qed.

Lemma substring_all (b : string) : String.substring 0 (String.length b) b = b.
Proof. induction b as [|c b IH]; simpl; [reflexivity | now rewrite IH]. Qed.

Lemma substring_append (a b : string) :
  String.substring (String.length a) (String.length b) (a ++ b) = b.
Proof.
  induction a as [|c a IH]; [apply substring_all|].
  change (String.substring (String.length a) (String.length b) (a ++ b) = b). exact IH.
Qed.

Lemma HasSuffix_append (a b : string) : HasSuffix (a ++ b) b = true.
Proof.
  unfold HasSuffix. rewrite length_append.
  replace (String.length a + String.length b - String.length b)%nat
    with (String.length a) by lia.
  rewrite substring_append, String.eqb_refl.
  apply andb_true_iff. split; [apply Nat.leb_le; lia | reflexivity].
Qed.

Lemma append_assoc (a b c : string) : ((a ++ b) ++ c = a ++ (b ++ c))%string.
Proof.
  induction a as [|x a IH]; [reflexivity|].
  change (String x ((a ++ b) ++ c) = String x (a ++ (b ++ c)))%string. now rewrite IH.
Qed.

Section Playing.
Variable Sequenceable : Type.

Local Abbreviation Value := (Value Sequenceable).
Local Abbreviation playable :=
  (fun p : Value => getSequenceable Sequenceable (getValue Sequenceable p)).
Local Abbreviation unplayable :=
  (fun p : Value => match playable p with None => true | Some _ => false end).

(** X25. The file an export goes to.  If [export] gets as far as the call of
    [file.Export], the file name it passes ends in [mid]: it is the given
    name when that already ends in [mid], with or without a dot before it,
    and the given name followed by [.mid] otherwise.  The given name was
    not empty, and what is exported is the value behind a variable. *)
Theorem export_filename (filename name : string) (m v : Value) :
  export Sequenceable filename m = Export _ name v ->
  HasSuffix name "mid" = true /\
  name = (if HasSuffix filename "mid" then filename else filename ++ ".mid")%string /\
  filename <> ""%string /\
  v = getValue _ m.
Proof.
  unfold export. destruct filename as [|c rest] eqn:Ef; [discriminate|]. rewrite <- Ef.
  assert (filename <> ""%string) by (rewrite Ef; discriminate).
  replace (String.length filename =? 0)%nat with false by (rewrite Ef; reflexivity).
  destruct (getSequenceable _ m); [|discriminate].
  destruct (HasSuffix filename "mid") eqn:Hs; simpl; intros [= <- <-].
  - auto.
  - repeat split; auto.
    change (filename ++ ".mid")%string with (filename ++ ("." ++ "mid"))%string.
    rewrite <- append_assoc. apply HasSuffix_append.
Qed.

Variable ending : Sequenceable -> Z -> Z.

Lemma play_fold (bpm : spec_float) (playables : list Value) (moment : Z)
    (calls : list (Sequenceable * Z)) (warned : list Value) :
  let '(_, calls', warned') :=
    fold_left
      (fun '(moment, dev, warned) p =>
         match playable p with
         | Some s => let '(ending, dev') := recorder ending dev s bpm moment in
                     (ending, dev', warned)
         | None => (moment, dev, warned ++ [p])
         end)
      playables (moment, calls, warned) in
  calls' = calls ++ backToBack ending moment (omap playable playables) /\
  warned' = warned ++ List.filter unplayable playables.
Proof.
  revert moment calls warned.
  induction playables as [|p rest IH]; intros moment calls warned; simpl.
  - now rewrite !app_nil_r.
  - destruct (getSequenceable _ (getValue _ p)) as [s|] eqn:Hp; simpl.
    + specialize (IH (ending s moment) (calls ++ [(s, moment)]) warned).
      destruct (fold_left _ rest _) as [[m' c'] w']. destruct IH as [-> ->].
      now rewrite <- app_assoc.
    + specialize (IH moment calls (warned ++ [p])).
      destruct (fold_left _ rest _) as [[m' c'] w']. destruct IH as [-> ->].
      now rewrite <- app_assoc.
Qed.

Lemma go_fold (bpm : spec_float) (playables : list Value) (moment : Z)
    (calls : list (Sequenceable * Z)) (warned : list Value) :
  fold_left
    (fun '(dev, warned) p =>
       match playable p with
       | Some s => (snd (recorder ending dev s bpm moment), warned)
       | None => (dev, warned ++ [p])
       end)
    playables (calls, warned)
  = (calls ++ map (fun s => (s, moment)) (omap playable playables),
     warned ++ List.filter unplayable playables).
Proof.
  revert calls warned.
  induction playables as [|p rest IH]; intros calls warned; simpl.
  - now rewrite !app_nil_r.
  - destruct (getSequenceable _ (getValue _ p)) as [s|] eqn:Hp; simpl.
    + rewrite IH. now rewrite <- app_assoc.
    + rewrite IH. now rewrite <- app_assoc.
Qed.

(** X26. [play] plays one object after the other, [go] all at once.  On a
    device that records the calls of [Play] and answers each with an ending,
    [play] hands over the playables that are sequenceable, variables
    replaced by their values, in their order, the first to begin now and
    each next one where the device said the one before it ends; [go] hands
    over the same objects, every one to begin now.  Both skip what is not
    sequenceable with a warning, without breaking the chain. *)
Theorem play_back_to_back (now : Z) (bpm : spec_float) (playables : list Value)
    (calls : list (Sequenceable * Z)) :
  play _ _ (recorder ending) now bpm playables calls
  = (calls ++ backToBack ending now (omap playable playables),
     List.filter unplayable playables) /\
  go _ _ (recorder ending) now bpm playables calls
  = (calls ++ map (fun s => (s, now)) (omap playable playables),
     List.filter unplayable playables).
Proof.
  split.
  - unfold play. pose proof (play_fold bpm playables now calls []) as H.
    destruct (fold_left _ playables _) as [[m' c'] w']. destruct H as [-> ->].
    reflexivity.
  - unfold go. rewrite go_fold. reflexivity.
Qed.

End Playing.

Lemma export_filename_witness :
  HasSuffix "tune.mid" "mid" = true /\
  "tune.mid"%string = (if HasSuffix "tune" "mid" then "tune" else "tune" ++ ".mid")%string /\
  "tune"%string <> ""%string /\
  Plain nat (Some 1%nat) = getValue nat (Holder nat (Some 0%nat) (Plain nat (Some 1%nat))).
Proof.
  exact (export_filename nat "tune" "tune.mid"
           (Holder nat (Some 0%nat) (Plain nat (Some 1%nat))) (Plain nat (Some 1%nat))
           eq_refl).
Defined.

End DslFacts.

(** ** The help listing *)

Module HelpFacts.
Import Help.

Lemma before_trans (a b c : string) : before a b -> before b c -> before a c.
Proof.
  unfold before, String.leb. revert b c.
  induction a as [|x a IH]; intros [|y b] [|z c]; simpl; try congruence.
  unfold Ascii.compare.
  destruct (N.compare_spec (Ascii.N_of_ascii x) (Ascii.N_of_ascii y)) as [Exy|Lxy|Gxy];
    try congruence;
    destruct (N.compare_spec (Ascii.N_of_ascii y) (Ascii.N_of_ascii z)) as [Eyz|Lyz|Gyz];
    try congruence;
    destruct (N.compare_spec (Ascii.N_of_ascii x) (Ascii.N_of_ascii z)) as [Exz|Lxz|Gxz];
    try congruence; try lia.
  apply IH.
Qed.

#[local] Instance before_Transitive : Transitive before.
Proof. intros a b c. apply before_trans. Qed.

#[local] Instance before_AntiSymm : AntiSymm (=) before.
Proof. intros a b. apply String.leb_antisym. Qed.

#[local] Instance before_Total : Total before.
Proof. intros a b. apply String.leb_total. Qed.

Lemma Strings_Sorted (keys : list string) : Sorted before (Strings keys).
Proof. apply Sorted_merge_sort. apply _. Qed.

Lemma Strings_Permutation (keys : list string) : Strings keys ≡ₚ keys.
Proof. apply merge_sort_Permutation. Qed.

(** The outcome of [sort.Strings] depends on the strings only, not on the
    order they come in. *)
Lemma Strings_unique (keys1 keys2 : list string) :
  keys1 ≡ₚ keys2 -> Strings keys1 = Strings keys2.
Proof.
  intros H. apply (Sorted_unique before); try apply Strings_Sorted.
  now rewrite !Strings_Permutation.
Qed.

Lemma length_spaces (n : nat) :
  String.length (Nat.iter n (String.append " ") EmptyString) = n.
Proof.
  induction n as [|n IH]; [reflexivity|].
  change (S (String.length (Nat.iter n (String.append " ") EmptyString)) = S n).
  now rewrite IH.
Qed.

Lemma Repeat_spaces (count : Z) :
  0 <= count -> exists pad, Repeat " " count = Some pad /\ len pad = count.
Proof.
  intros H. unfold Repeat. destruct (Z.ltb_spec count 0) as [|_]; [lia|].
  eexists. split; [reflexivity|]. unfold len. rewrite length_spaces. lia.
Qed.

Lemma max_le (lens : list Z) (w0 : Z) :
  w0 <= fold_left Z.max lens w0 /\ Forall (fun n => n <= fold_left Z.max lens w0) lens.
Proof.
  revert w0. induction lens as [|n lens IH]; intros w0; simpl; [split; [lia|constructor]|].
  destruct (IH (Z.max w0 n)) as [H1 H2]. split; [lia|]. constructor; [lia | exact H2].
Qed.

Lemma max_Permutation (l1 l2 : list Z) (w0 : Z) :
  l1 ≡ₚ l2 -> fold_left Z.max l1 w0 = fold_left Z.max l2 w0.
Proof.
  intros H. revert w0. induction H as [|x l1 l2 _ IH|x y l|l1 l2 l3 _ IH1 _ IH2];
    intros w0; simpl.
  - reflexivity.
  - apply IH.
  - f_equal. lia.
  - now rewrite IH1.
Qed.

Lemma filter_Permutation {A} (f : A -> bool) (l1 l2 : list A) :
  l1 ≡ₚ l2 -> List.filter f l1 ≡ₚ List.filter f l2.
Proof.
  induction 1 as [|x l1 l2 _ IH|x y l|l1 l2 l3 _ IH1 _ IH2]; simpl.
  - reflexivity.
  - destruct (f x); [now constructor | exact IH].
  - destruct (f x), (f y); try reflexivity. apply perm_swap.
  - now transitivity (List.filter f l2).
Qed.

Section Listing.
Variable Closure : Type.

Local Abbreviation Function := (Dsl.Function Closure).
Local Abbreviation collect := (collect Closure).
Local Abbreviation listing := (listing Closure).
Local Abbreviation chosen audio range :=
  (map fst (List.filter (fun kf : string * Function => listed Closure audio (snd kf)) range)).

Lemma collect_from (audio : bool) (range : list (string * Function))
    (keys0 : list string) (w0 : Z) :
  fold_left
    (fun '(keys, width) '(k, f) =>
       if (len (Dsl.Title _ f) =? 0) then (keys, width)
       else if negb (Bool.eqb (Dsl.ControlsAudio _ f) audio) then (keys, width)
       else (keys ++ [k], if width <? len k then len k else width))
    range (keys0, w0)
  = (keys0 ++ chosen audio range, fold_left Z.max (map len (chosen audio range)) w0).
Proof.
  revert keys0 w0. induction range as [|[k f] range IH]; intros keys0 w0; simpl.
  - now rewrite app_nil_r.
  - unfold listed. simpl.
    destruct (len (Dsl.Title _ f) =? 0); simpl; [apply IH|].
    destruct (Bool.eqb (Dsl.ControlsAudio _ f) audio); simpl; [|apply IH].
    rewrite IH, <- app_assoc. simpl. f_equal. f_equal.
    destruct (Z.ltb_spec w0 (len k)); lia.
Qed.

Lemma collect_chosen (audio : bool) (range : list (string * Function)) :
  collect audio range
  = (chosen audio range, fold_left Z.max (map len (chosen audio range)) 0).
Proof. unfold Help.collect. now rewrite collect_from. Qed.

Lemma mapM_total {A B} (f : A -> option B) (g : A -> B) (l : list A) :
  Forall (fun x => f x = Some (g x)) l -> mapM f l = Some (map g l).
Proof.
  induction 1 as [|x l Hx _ IH]; simpl; [reflexivity|].
  rewrite Hx. simpl. rewrite IH. reflexivity.
Qed.

(** X28. A listing block of [showHelp] cannot fail and comes out aligned:
    [strings.Repeat] is never asked for a negative count, every line's key
    column, padding and key together, has the same width, the lines are in
    increasing order of their keys, and the keys listed are exactly those of
    the entries that have a title and are of the block's kind. *)
Theorem listing_aligned (audio : bool) (funcs : gmap string Function)
    (range : list (string * Function)) :
  exists lines width,
    listing audio funcs range = Some lines /\
    Forall (fun l => len (padding l) + len (key l) = width) lines /\
    Sorted before (map key lines) /\
    map key lines ≡ₚ chosen audio range.
Proof.
  unfold Help.listing. rewrite collect_chosen.
  set (keys := chosen audio range). set (width := fold_left Z.max (map len keys) 0).
  assert (Hw : Forall (fun k => len k <= width) (Strings keys)).
  { apply List.Forall_forall. intros k Hk.
    assert (Hin : List.In k keys).
    { eapply Permutation_in; [apply Strings_Permutation | exact Hk]. }
    destruct (max_le (map len keys) 0) as [_ Hall].
    rewrite List.Forall_forall in Hall. apply Hall. now apply in_map. }
  pose (pad := fun k => match Repeat " " (width - len k) with
                        | Some p => p
                        | None => EmptyString
                        end).
  pose (line := fun k =>
                  mkLine (pad k) k
                         match funcs !! k with
                         | Some f => if audio then Dsl.Description _ f else Dsl.Title _ f
                         | None => EmptyString
                         end).
  assert (Hl : write Closure audio funcs width keys = Some (map line (Strings keys))).
  { unfold write. apply mapM_total. eapply Forall_impl; [exact Hw|].
    intros k Hk. simpl in Hk. unfold line, pad.
    destruct (Repeat_spaces (width - len k) ltac:(lia)) as (p & -> & _). reflexivity. }
  exists (map line (Strings keys)), width. split; [exact Hl|]. split; [|split].
  - apply Forall_map. eapply Forall_impl; [exact Hw|].
    intros k Hk. simpl in *. unfold pad.
    destruct (Repeat_spaces (width - len k) ltac:(lia)) as (p & -> & Hp). lia.
  - rewrite map_map. simpl. rewrite map_id. apply Strings_Sorted.
  - rewrite map_map. simpl. rewrite map_id. apply Strings_Permutation.
Qed.

(** X29. The listing does not depend on the order in which the map yields
    its entries: two ranges over the same entries give the same lines, in
    the same order and with the same padding. *)
Theorem listing_order_independent (audio : bool) (funcs : gmap string Function)
    (range1 range2 : list (string * Function)) :
  range1 ≡ₚ range2 ->
  listing audio funcs range1 = listing audio funcs range2.
Proof.
  intros H. unfold Help.listing. rewrite !collect_chosen.
  assert (Hk : chosen audio range1 ≡ₚ chosen audio range2).
  { apply Permutation_map. now apply filter_Permutation. }
  unfold write. rewrite (Strings_unique _ _ Hk).
  rewrite (max_Permutation _ _ 0 (Permutation_map len Hk)). reflexivity.
Qed.

End Listing.

Lemma listing_order_independent_witness :
  let join := Dsl.mkFunction unit "Join operator" "" "joi" "J" "" "" false "" false false tt in
  let at_ := Dsl.mkFunction unit "Index getter" "" "at" "" "" "" false "" false false tt in
  listing unit false (<["join"%string := join]> (<["at"%string := at_]> ∅))
          [("join"%string, join); ("at"%string, at_)]
  = listing unit false (<["join"%string := join]> (<["at"%string := at_]> ∅))
            [("at"%string, at_); ("join"%string, join)].
Proof.
  apply (listing_order_independent unit false). apply perm_swap.
Defined.

End HelpFacts.
